(** * MulticallService: schema-to-observable compiler

    A shallow embedding of [packages/dai/src/eth/MulticallService.js].

    JavaScript strings are modelled as [string]; the parser only ever
    inspects the ASCII characters '(' , ')' and ',' so the difference
    between bytes and UTF-16 code units does not show.  Arrays are lists.
    Thrown exceptions are values of [exn]; a method that can throw returns
    its exception together with the state reached when it was thrown. *)

From Stdlib Require Import String Ascii List ZArith Lia Bool Arith.
Import ListNotations.
Local Open Scope string_scope.
Local Open Scope list_scope.

(** ** JavaScript string and array primitives used by the service *)

Module JS.

(** [s.split(c)] for a one-character separator: always at least one
    fragment, the empty string splitting into one empty fragment. *)
Fixpoint split (c : ascii) (s : string) : list string :=
  match s with
  | EmptyString => [EmptyString]
  | String x r =>
      if Ascii.eqb x c then EmptyString :: split c r
      else match split c r with
           | h :: t => String x h :: t
           | [] => [String x EmptyString]
           end
  end.

(** [arr.join(sep)] on an array of strings. *)
Fixpoint join (sep : string) (l : list string) : string :=
  match l with
  | [] => EmptyString
  | [x] => x
  | x :: r => (x ++ sep ++ join sep r)%string
  end.

(** [s[s.length - 1]]; [None] is JavaScript's [undefined] (empty string). *)
Fixpoint last_char (s : string) : option ascii :=
  match s with
  | EmptyString => None
  | String c EmptyString => Some c
  | String _ r => last_char r
  end.

Definition nonempty (s : string) : bool :=
  match s with EmptyString => false | _ => true end.

End JS.

(** ** Exceptions *)

(** The service throws [Error] objects told apart by their message, and the
    runtime throws [TypeError] when a property of [undefined] is read. *)
Inductive exn : Type :=
| InvalidCallNoReturn      (* 'Invalid contract call specified, call must return at least one argument' *)
| CallArityMismatch        (* '... number of call types, ... does not match number of call arguments, ...' *)
| ReturnArityMismatch      (* '... number of return types, ... does not match number of return arguments, ...' *)
| WatcherNotDefined        (* 'watcher is not defined' *)
| UnableToGetRpcUrl        (* 'Unable to get rpcUrl for multicall' *)
| TypeError.               (* property access on undefined *)

Inductive result (A : Type) : Type :=
| Ok (a : A)
| Throw (e : exn).
Arguments Ok {A} a.
Arguments Throw {A} e.

(** ** destructureContractCall *)

Record CallSignature : Type := mkSig {
  callFnName : list string;
  callTypes : list string;
  returnTypes : list string
}.

(** The first [map] of the method: drop one trailing ')' . *)
Definition strip_paren (s : string) : string :=
  match JS.last_char s with
  | Some c => if Ascii.eqb c ")" then substring 0 (String.length s - 1) s else s
  | None => s
  end.

(** The three chained [map]s applied to [call.split('(')]. *)
Definition call_groups (call : string) : list (list string) :=
  map (fun s => filter JS.nonempty s)
    (map (fun s => JS.split "," s)
       (map strip_paren (JS.split "(" call))).

(** Array destructuring [[callFnName, callTypes, returnTypes] = groups]
    leaves the missing positions [undefined]; reading [returnTypes.length]
    then raises a [TypeError].  Fragments past the third are ignored. *)
Definition destructureContractCall (call : string) : result CallSignature :=
  match call_groups call with
  | fn :: ct :: rt :: _ =>
      if Nat.ltb (List.length rt) 1 then Throw InvalidCallNoReturn
      else Ok (mkSig fn ct rt)
  | _ => Throw TypeError
  end.

(** ** Values, result events and stream objects *)

(** Values that travel as call arguments and results: strings, integers
    (a number that is not an integer is outside this model), [undefined]
    and [null]. *)
Inductive jsval : Type :=
| JUndefined
| JNull
| JString (s : string)
| JNumber (z : Z).

Definition transform : Type := jsval -> jsval.

Definition digit_char (n : nat) : ascii := ascii_of_nat (48 + n).

Fixpoint digits (fuel n : nat) (acc : string) : string :=
  match fuel with
  | O => acc
  | S f =>
      let acc' := String (digit_char (n mod 10)) acc in
      if Nat.ltb n 10 then acc' else digits f (n / 10) acc'
  end.

Definition show_nat (n : nat) : string := digits (S n) n EmptyString.

Definition show_Z (z : Z) : string :=
  match z with
  | Zneg p => ("-" ++ show_nat (Pos.to_nat p))%string
  | _ => show_nat (Z.to_nat z)
  end.

(** How [Array.prototype.join] renders one element: [undefined] and [null]
    give the empty string. *)
Definition join_str (v : jsval) : string :=
  match v with
  | JUndefined | JNull => EmptyString
  | JString s => s
  | JNumber z => show_Z z
  end.

(** A Result Event [{type, value}] pushed through the root observable. *)
Record event : Type := mkEvent { type : string; value : jsval }.

(** The registry is a tree of plain objects whose leaves are references to
    stream objects.  Plain objects keep their keys in insertion order.  The
    registry's plain objects are built fresh by every [merge({}, ...)] and
    shared with nobody, so they are values; stream objects are shared by
    reference between snapshots, so they live in a heap and are named by
    their index in it. *)
#[local] Set Warnings "-register-all".
Inductive node : Type :=
| Stream (id : nat)
| Obj (fields : list (string * node)).

Definition fields : Type := list (string * node).

(** A stream object: [emits log] is what a subscriber has received once the
    events [log] went through the root ReplaySubject (which replays all of
    them to late subscribers); [props] are the properties that [merge] has
    put on the object itself.  The fields rxjs keeps on its observables are
    not modelled. *)
Record StreamObj : Type := mkStream {
  emits : list event -> list jsval;
  props : fields
}.

Definition heap : Type := list StreamObj.

Definition stream_props (h : heap) (i : nat) : fields :=
  match nth_error h i with
  | Some o => props o
  | None => []
  end.

Fixpoint set_props (h : heap) (i : nat) (p : fields) : heap :=
  match h, i with
  | [], _ => []
  | o :: r, O => mkStream (emits o) p :: r
  | o :: r, S j => o :: set_props r j p
  end.

(** [obj[k]] on a plain object used as a map. *)
Fixpoint lookup (k : string) (f : fields) : option node :=
  match f with
  | [] => None
  | (k', v) :: r => if String.eqb k k' then Some v else lookup k r
  end.

(** [obj[k] = v]: an existing key keeps its place, a new key goes last. *)
Fixpoint set_field (k : string) (v : node) (f : fields) : fields :=
  match f with
  | [] => [(k, v)]
  | (k', v') :: r =>
      if String.eqb k k' then (k', v) :: r else (k', v') :: set_field k v r
  end.

(** The own properties of what a reference designates. *)
Definition fields_of (h : heap) (n : node) : fields :=
  match n with
  | Obj f => f
  | Stream i => stream_props h i
  end.

(** ** lodash [get] and [merge] *)

Module Lodash.

(** The loop of [baseGet]: [object = object[key]] along the path. *)
Fixpoint walk (h : heap) (n : node) (path : list string) : option node :=
  match path with
  | [] => Some n
  | k :: r =>
      match lookup k (fields_of h n) with
      | Some c => walk h c r
      | None => None
      end
  end.

(** [baseGet] answers [undefined] for an empty path. *)
Definition baseGet (h : heap) (n : node) (path : list string) : option node :=
  match path with
  | [] => None
  | _ => walk h n path
  end.

(** [castPath] for a string: a string that is itself a key of the object is
    one segment, otherwise it is cut at the dots.  (The bracket syntax of
    lodash paths is not modelled.) *)
Definition castPath (h : heap) (n : node) (pathString : string) : list string :=
  match lookup pathString (fields_of h n) with
  | Some _ => [pathString]
  | None => JS.split "." pathString
  end.

Definition get (h : heap) (n : node) (pathString : string) : option node :=
  baseGet h n (castPath h n pathString).

(** [baseMerge(object, source)] with [baseMergeDeep], for the values found
    in a registry.  For each key of the source, in order:
    - a stream (not a plain object) is assigned by reference, replacing
      whatever the destination had;
    - a plain object is merged recursively into the destination's value when
      that is an object, be it a plain object or a stream object, which is
      then changed in place; and into a fresh [{}] when the destination has
      no value there.
    [mergeValue sv h ov] is the value the key holds afterwards, [ov] being
    the destination's value before.  A stream object only ever receives
    streams made after it, so its properties never lead back to it, and
    merging into them and storing the result is the merge in place. *)
Fixpoint mergeValue (sv : node) (h : heap) (ov : option node) {struct sv}
  : heap * node :=
  match sv with
  | Stream i => (h, Stream i)
  | Obj sf =>
      let go :=
        (fix go (src : fields) (h : heap) (dst : fields) {struct src}
           : heap * fields :=
           match src with
           | [] => (h, dst)
           | (k, v) :: rest =>
               let '(h1, nv) := mergeValue v h (lookup k dst) in
               go rest h1 (set_field k nv dst)
           end) in
      match ov with
      | Some (Stream i) =>
          let '(h', p') := go sf h (stream_props h i) in
          (set_props h' i p', Stream i)
      | Some (Obj df) =>
          let '(h', df') := go sf h df in (h', Obj df')
      | None =>
          let '(h', df') := go sf h [] in (h', Obj df')
      end
  end.

(** [baseMerge(object, source)] on the keys of [source]. *)
Fixpoint baseMerge (src : fields) (h : heap) (dst : fields) {struct src}
  : heap * fields :=
  match src with
  | [] => (h, dst)
  | (k, v) :: rest =>
      let '(h1, nv) := mergeValue v h (lookup k dst) in
      baseMerge rest h1 (set_field k nv dst)
  end.

(** [merge({}, a, b)]: both sources are merged in turn into a fresh object,
    which is the result. *)
Definition merge (h : heap) (a b : node) : heap * node :=
  let '(h1, d1) := baseMerge (fields_of h a) h [] in
  let '(h2, d2) := baseMerge (fields_of h1 b) h1 d1 in
  (h2, Obj d2).

End Lodash.

(** [path.reduceRight((obj, elem) => ({ [elem]: obj }), leaf)] *)
Definition nest (path : list string) (leaf : node) : node :=
  fold_right (fun elem obj => Obj [(elem, obj)]) leaf path.

(** ** The batch executor (the watcher of [@makerdao/multicall]) *)

(** A call descriptor of the watcher's call list.  [target] is
    [addresses[contractName]], [undefined] for an unknown name; [call] is
    [[contractCall, ...processedCallArgs]]; an element of [returns] is
    [[key]] or [[key, cb]]. *)
Record descriptor : Type := mkDescriptor {
  target : option string;
  call : list jsval;
  returns : list (string * option transform)
}.

(** The only function the service ever subscribes to its watcher:
    [updates => this._rootObservable.next(updates)]. *)
Inductive listener : Type := NextRoot.

(** What the service relies on in a watcher: the call list that [tap]
    rewrites, and the functions registered with [subscribe], each of which
    the watcher calls with every update. *)
Record Watcher : Type := mkWatcher {
  model : list descriptor;
  listeners : list listener
}.

(** ** The service *)

(** The reference [this._rootObservable]: the one ReplaySubject the
    constructor makes; the field is never assigned again. *)
Inductive Subject : Type := RootSubject.

Record state : Type := mkState {
  _rootObservable : list event;      (* what went through the ReplaySubject *)
  _rootSubscription : option nat;    (* [None] is [null] *)
  _rootSubcription : option nat;     (* the field [startObservable] assigns; [None] is [undefined] *)
  _watcher : option Watcher;         (* [None] is [undefined] *)
  observableStore : node;
  streams : heap;                    (* the stream objects made so far *)
  contractAddresses : string -> option string
                                     (* [smartContract.getContractAddresses()] *)
}.

Definition constructor (addresses : string -> option string) : state :=
  mkState [] None None None (Obj []) [] addresses.

Definition with_watcher (st : state) (w : option Watcher) : state :=
  mkState (_rootObservable st) (_rootSubscription st) (_rootSubcription st)
    w (observableStore st) (streams st) (contractAddresses st).

Definition with_store (st : state) (store : node) (h : heap) : state :=
  mkState (_rootObservable st) (_rootSubscription st) (_rootSubcription st)
    (_watcher st) store h (contractAddresses st).

Definition with_subcription (st : state) (sub : option nat) : state :=
  mkState (_rootObservable st) (_rootSubscription st) sub
    (_watcher st) (observableStore st) (streams st) (contractAddresses st).

(** [this._rootObservable.next(e)] *)
Definition next (e : event) (st : state) : state :=
  mkState (_rootObservable st ++ [e]) (_rootSubscription st)
    (_rootSubcription st) (_watcher st) (observableStore st) (streams st)
    (contractAddresses st).

Definition run_listener (e : event) (st : state) (l : listener) : state :=
  match l with NextRoot => next e st end.

(** The watcher hands one update to every subscribed function. *)
Definition watcher_emit (e : event) (st : state) : state :=
  match _watcher st with
  | Some w => fold_left (run_listener e) (listeners w) st
  | None => st
  end.

(** [createWatcher]: only the choice of transport can fail; the new watcher
    has an empty call list and nobody subscribed. *)
Definition createWatcher (useWeb3Provider : bool) (rpcUrl : option string)
    (st : state) : result Watcher * state :=
  let fresh := mkWatcher [] [] in
  if useWeb3Provider then (Ok fresh, with_watcher st (Some fresh))
  else
    match rpcUrl with
    | Some (String _ _) => (Ok fresh, with_watcher st (Some fresh))
    | _ => (Throw UnableToGetRpcUrl, st)
    end.

Definition startObservable (st : state) : result Subject * state :=
  match _watcher st with
  | None => (Throw WatcherNotDefined, st)
  | Some w =>
      match _rootSubscription st with
      | None =>
          let w' := mkWatcher (model w) (listeners w ++ [NextRoot]) in
          (Ok RootSubject,
           with_subcription (with_watcher st (Some w'))
             (Some (List.length (listeners w))))
      | Some _ => (Ok RootSubject, st)
      end
  end.

Definition getObservable (st : state) (pathString : string) : option node :=
  Lodash.get (streams st) (observableStore st) pathString.

(** ** registerLogicalSchema *)

Module Logical.
Record schema : Type := mkSchema {
  contractName : string;
  contractCall : string;
  callArgs : list (jsval * option transform);
  callArgsOverrides : option (list jsval);
  returnKeys : list (string * option transform);
  observableKeys : list (list string)
}.
End Logical.

(** [addresses.MDAI = addresses.MCD_DAI; addresses.MWETH = addresses.ETH] *)
Definition with_aliases (addresses : string -> option string)
  : string -> option string :=
  let a1 := fun k => if String.eqb k "MDAI" then addresses "MCD_DAI"
                     else addresses k in
  fun k => if String.eqb k "MWETH" then a1 "ETH" else a1 k.

(** [this._rootObservable.pipe(filter(({type}) => type === key),
    map(({value}) => value))] *)
Definition filteredObservable (key : string) : list event -> list jsval :=
  fun log => map value (filter (fun e => String.eqb (type e) key) log).

Definition callArgsIdentifiers (s : Logical.schema) : string :=
  match Logical.callArgsOverrides s with
  | Some o => JS.join "." (map join_str o)
  | None => JS.join "." (map (fun a => join_str (fst a)) (Logical.callArgs s))
  end.

(** [`${contractName}.${callFnName}.${callArgsIdentifiers}`]; the array
    [callFnName] is rendered with commas. *)
Definition callKeyStructure (s : Logical.schema) (callFnName : list string)
  : string :=
  (Logical.contractName s ++ "." ++ JS.join "," callFnName ++ "."
     ++ callArgsIdentifiers s)%string.

Definition processedCallArgs (s : Logical.schema) : list jsval :=
  map (fun a => match snd a with
                | None => fst a
                | Some cb => cb (fst a)
                end) (Logical.callArgs s).

Definition processedReturnKeys (s : Logical.schema) (callFnName : list string)
  : list (string * option transform) :=
  map (fun r => ((callKeyStructure s callFnName ++ "." ++ fst r)%string, snd r))
    (Logical.returnKeys s).

(** The body of [observableKeys.forEach((item, idx) => ...)].  With no
    return key at [idx], reading [processedReturnKeys[idx][0]] for the log
    line throws before the store is assigned; the observable made just
    before is dropped with it. *)
Definition registerObservable (prk : list (string * option transform))
    (item : list string) (idx : nat) (st : state) : result unit * state :=
  match nth_error prk idx with
  | None => (Throw TypeError, st)
  | Some (key, _) =>
      let id := List.length (streams st) in
      let h := streams st ++ [mkStream (filteredObservable key) []] in
      let '(h', store') :=
        Lodash.merge h (observableStore st) (nest item (Stream id)) in
      (Ok tt, with_store st store' h')
  end.

Fixpoint forEachObservable (prk : list (string * option transform))
    (items : list (list string)) (idx : nat) (st : state)
  : result unit * state :=
  match items with
  | [] => (Ok tt, st)
  | item :: rest =>
      match registerObservable prk item idx st with
      | (Ok _, st') => forEachObservable prk rest (S idx) st'
      | (Throw e, st') => (Throw e, st')
      end
  end.

(** The reducer passed to [schemas.reduce]. *)
Definition reducer (acc : list descriptor) (s : Logical.schema) (st : state)
  : result (list descriptor) * state :=
  match destructureContractCall (Logical.contractCall s) with
  | Throw e => (Throw e, st)
  | Ok sig =>
      if negb (Nat.eqb (List.length (callTypes sig))
                       (List.length (Logical.callArgs s)))
      then (Throw CallArityMismatch, st)
      else if negb (Nat.eqb (List.length (returnTypes sig))
                            (List.length (Logical.returnKeys s)))
      then (Throw ReturnArityMismatch, st)
      else
        let prk := processedReturnKeys s (callFnName sig) in
        match forEachObservable prk (Logical.observableKeys s) 0 st with
        | (Throw e, st') => (Throw e, st')
        | (Ok _, st') =>
            (Ok (acc ++
                 [mkDescriptor
                    (with_aliases (contractAddresses st) (Logical.contractName s))
                    (JString (Logical.contractCall s) :: processedCallArgs s)
                    prk]),
             st')
        end
  end.

Fixpoint reduce (schemas : list Logical.schema) (acc : list descriptor)
    (st : state) : result (list descriptor) * state :=
  match schemas with
  | [] => (Ok acc, st)
  | s :: rest =>
      match reducer acc s st with
      | (Ok acc', st') => reduce rest acc' st'
      | (Throw e, st') => (Throw e, st')
      end
  end.

(** [this._watcher.tap(calls => [...calls, ...schemas.reduce(...)])]: the
    watcher applies the function to its call list at once and keeps the
    result; when the function throws, the call list stays as it was. *)
Definition registerLogicalSchema (schemas : list Logical.schema) (st : state)
  : result node * state :=
  match _watcher st with
  | None => (Throw TypeError, st)
  | Some w =>
      match reduce schemas [] st with
      | (Throw e, st') => (Throw e, st')
      | (Ok descriptors, st') =>
          (Ok (observableStore st'),
           with_watcher st'
             (Some (mkWatcher (model w ++ descriptors) (listeners w))))
      end
  end.

(** ** registerDerivedSchema *)

Module Derived.
(** [fn] receives the resolved dependencies and returns a new observable;
    it is given the heap to read the streams its arguments refer to, and
    answers what the new observable emits. *)
Record schema : Type := mkSchema {
  observableKeys : list string;
  dependencies : list (list string);
  fn : heap -> list node -> list event -> list jsval
}.
End Derived.

Definition dependentObservables (d : Derived.schema) (st : state)
  : list (option node) :=
  map (fun dep => getObservable st (JS.join "." dep)) (Derived.dependencies d).

(** [!dependentObservables.some(x => !!x === false)]: objects are truthy,
    [undefined] is not. *)
Definition allDependentObservablesExist (deps : list (option node)) : bool :=
  negb (existsb (fun x => match x with Some _ => false | None => true end) deps).

Fixpoint resolved (deps : list (option node)) : list node :=
  match deps with
  | [] => []
  | Some n :: r => n :: resolved r
  | None :: r => resolved r
  end.

(** The body of [schemas.forEach] in [registerDerivedSchema]. *)
Definition registerDerived (d : Derived.schema) (st : state) : state :=
  let deps := dependentObservables d st in
  if allDependentObservablesExist deps then
    let id := List.length (streams st) in
    let h := streams st
               ++ [mkStream (Derived.fn d (streams st) (resolved deps)) []] in
    let '(h', store') :=
      Lodash.merge h (observableStore st)
        (nest (Derived.observableKeys d) (Stream id)) in
    with_store st store' h'
  else st.

Definition registerDerivedSchema (schemas : list Derived.schema) (st : state)
  : state :=
  fold_left (fun s d => registerDerived d s) schemas st.

(** [disconnect() { // TODO }] *)
Definition disconnect (st : state) : state := st.

(** ** Well-formed call signatures *)

Fixpoint occurs (c : ascii) (s : string) : bool :=
  match s with
  | EmptyString => false
  | String x r => Ascii.eqb x c || occurs c r
  end.

(** A name or type of a signature: not empty, and free of the three
    characters the parser cuts at. *)
Definition is_token (s : string) : bool :=
  JS.nonempty s && negb (occurs "(" s) && negb (occurs ")" s)
    && negb (occurs "," s).

(** The text [f(a1,...,an)(r1,...,rm)]. *)
Definition signature_text (f : string) (args rets : list string) : string :=
  (f ++ "(" ++ JS.join "," args ++ ")(" ++ JS.join "," rets ++ ")")%string.

(** ** Well-formed registries *)

Fixpoint has_key (k : string) (f : fields) : bool :=
  match f with
  | [] => false
  | (k', _) :: r => String.eqb k k' || has_key k r
  end.

(** A JavaScript object has each of its keys once. *)
Fixpoint keys_ok (n : node) : bool :=
  match n with
  | Stream _ => true
  | Obj f =>
      (fix go (f : fields) : bool :=
         match f with
         | [] => true
         | (k, v) :: r => negb (has_key k r) && keys_ok v && go r
         end) f
  end.

(** Every stream reference inside a value satisfies [p]. *)
Fixpoint forall_ids (p : nat -> bool) (n : node) : bool :=
  match n with
  | Stream i => p i
  | Obj f =>
      (fix go (f : fields) : bool :=
         match f with
         | [] => true
         | (_, v) :: r => forall_ids p v && go r
         end) f
  end.

Definition between (lo hi j : nat) : bool := Nat.leb lo j && Nat.ltb j hi.

(** The properties merged onto the stream objects [h], the first of which
    has index [i]: keys are unique, and a stream object only holds
    references to stream objects made after it and before the [hi]-th. *)
Fixpoint heap_ok (hi i : nat) (h : heap) : bool :=
  match h with
  | [] => true
  | o :: r =>
      keys_ok (Obj (props o)) && forall_ids (between (S i) hi) (Obj (props o))
        && heap_ok hi (S i) r
  end.

Definition is_object (n : node) : bool :=
  match n with Obj _ => true | Stream _ => false end.

(** What holds of the registry in every state of the service. *)
Definition wf_state (st : state) : bool :=
  is_object (observableStore st)
  && keys_ok (observableStore st)
  && forall_ids (between 0 (List.length (streams st))) (observableStore st)
  && heap_ok (List.length (streams st)) 0 (streams st).

(** Merging the one-path entry [nest (k :: rest) (Stream s)] into the
    object [dst]. *)
Definition put (k : string) (rest : list string) (s : nat) (h : heap)
    (dst : fields) : heap * fields :=
  Lodash.baseMerge [(k, nest rest (Stream s))] h dst.



(** The heap part of well-formedness, stream by stream. *)
Definition heap_inv (hi : nat) (h : heap) : Prop :=
  forall i,
    keys_ok (Obj (stream_props h i)) = true
    /\ forall_ids (between (S i) hi) (Obj (stream_props h i)) = true.

(** What both compilers do to register a new stream emitting [e] at
    [path]: [this.observableStore = merge({}, this.observableStore,
    path.reduceRight(..., stream))]. *)
Definition register (path : list string) (e : list event -> list jsval)
    (st : state) : state :=
  let id := List.length (streams st) in
  let h := streams st ++ [mkStream e []] in
  let '(h', store') :=
    Lodash.merge h (observableStore st) (nest path (Stream id)) in
  with_store st store' h'.











(** ** The registry as a tree of stream objects *)





(** The shape the specification expects of a signature: a name and two
    parenthesized groups, [f(...)(...)], parentheses occurring nowhere
    else. *)
Definition two_parenthesized_groups (s : string) : Prop :=
  exists f a r : string,
    occurs "(" f = false /\ occurs ")" f = false /\
    occurs "(" a = false /\ occurs ")" a = false /\
    occurs "(" r = false /\ occurs ")" r = false /\
    s = (f ++ "(" ++ a ++ ")(" ++ r ++ ")")%string.


(** The states the service goes through: the constructor's, then any
    method call or update from the watcher. *)
Inductive reachable : state -> Prop :=
| reach_constructor addresses :
    reachable (constructor addresses)
| reach_createWatcher useWeb3Provider rpcUrl st :
    reachable st -> reachable (snd (createWatcher useWeb3Provider rpcUrl st))
| reach_startObservable st :
    reachable st -> reachable (snd (startObservable st))
| reach_registerLogicalSchema schemas st :
    reachable st -> reachable (snd (registerLogicalSchema schemas st))
| reach_registerDerivedSchema schemas st :
    reachable st -> reachable (registerDerivedSchema schemas st)
| reach_disconnect st :
    reachable st -> reachable (disconnect st)
| reach_watcher_emit e st :
    reachable st -> reachable (watcher_emit e st).

(** ** The call descriptor, in the specification's words *)

(** A schema entry the compiler accepts: its signature parses, the counts
    of call arguments and of return keys are those of the signature, and
    every observable key has a return key at its index. *)
Definition valid_schema (s : Logical.schema) : bool :=
  match destructureContractCall (Logical.contractCall s) with
  | Ok sig =>
      Nat.eqb (List.length (callTypes sig)) (List.length (Logical.callArgs s))
      && Nat.eqb (List.length (returnTypes sig))
                 (List.length (Logical.returnKeys s))
      && Nat.leb (List.length (Logical.observableKeys s))
                 (List.length (Logical.returnKeys s))
  | Throw _ => false
  end.

(** The function name of the parsed signature, as text. *)
Definition fnName (s : Logical.schema) : string :=
  match destructureContractCall (Logical.contractCall s) with
  | Ok sig => JS.join "," (callFnName sig)
  | Throw _ => EmptyString
  end.

(** [argIdentifiers]: the overrides if present, else the first element of
    each call-argument pair. *)
Definition argIdentifiers (s : Logical.schema) : list jsval :=
  match Logical.callArgsOverrides s with
  | Some ids => ids
  | None => map fst (Logical.callArgs s)
  end.

(** The Call Key ["{contractName}.{fnName}.{argIdentifiers joined by '.'}"]. *)
Definition callKey (s : Logical.schema) : string :=
  (Logical.contractName s ++ "." ++ fnName s ++ "."
     ++ JS.join "." (map join_str (argIdentifiers s)))%string.

Definition apply_transform (a : jsval * option transform) : jsval :=
  match a with
  | (v, Some f) => f v
  | (v, None) => v
  end.

Definition fullyQualified (s : Logical.schema) (k : string * option transform)
  : string * option transform :=
  match k with
  | (key, f) => ((callKey s ++ "." ++ key)%string, f)
  end.

(** The address table with its two aliases, as a resolution function. *)
Definition resolveAddress (addresses : string -> option string)
    (name : string) : option string :=
  if String.eqb name "MWETH" then addresses "ETH"
  else if String.eqb name "MDAI" then addresses "MCD_DAI"
  else addresses name.

Definition expected_descriptor (addresses : string -> option string)
    (s : Logical.schema) : descriptor :=
  {| target := resolveAddress addresses (Logical.contractName s);
     call := JString (Logical.contractCall s)
               :: map apply_transform (Logical.callArgs s);
     returns := map (fullyQualified s) (Logical.returnKeys s) |}.

(** The observable paths of a call, each with the fully-qualified return
    key at its index, in the order in which they are registered. *)
Definition registrations (schemas : list Logical.schema)
  : list (list string * string) :=
  flat_map
    (fun s => combine (Logical.observableKeys s)
                (map fst (map (fullyQualified s) (Logical.returnKeys s))))
    schemas.

Definition register_all (rs : list (list string * string)) (st : state)
  : state :=
  fold_left (fun st r => register (fst r) (filteredObservable (snd r)) st)
    rs st.

(** ** The example of the specification *)

Definition balance_schema : Logical.schema :=
  Logical.mkSchema "X" "bal(addr)(uint)" [(JString "0xabc", None)] None
    [("balance", None)] [["x"; "balance"]].

(** The same entry with its call argument left out. *)
Definition balance_schema_no_arg : Logical.schema :=
  Logical.mkSchema "X" "bal(addr)(uint)" [] None
    [("balance", None)] [["y"; "balance"]].

(** A service with a watcher and an empty address table. *)
Definition connected : state :=
  snd (createWatcher true None (constructor (fun _ => None))).


(** Induction on registry values, objects and their fields together. *)
Section NodeInduction.

Variable P : node -> Prop.
Variable Q : fields -> Prop.
Hypothesis P_stream : forall i, P (Stream i).
Hypothesis P_obj : forall f, Q f -> P (Obj f).
Hypothesis Q_nil : Q [].
Hypothesis Q_cons : forall k v r, P v -> Q r -> Q ((k, v) :: r).

Fixpoint node_fields_ind (n : node) : P n :=
  match n with
  | Stream i => P_stream i
  | Obj f =>
      P_obj f
        ((fix go (f : fields) : Q f :=
            match f with
            | [] => Q_nil
            | (k, v) :: r => Q_cons k v r (node_fields_ind v) (go r)
            end) f)
  end.

End NodeInduction.

(** ** Further notions for the properties of the code *)

(** A name or type as the parser hands it out: not empty, and without
    the characters it cuts at. *)
Definition clean_name (x : string) : Prop :=
  x <> EmptyString /\ occurs "," x = false /\ occurs "(" x = false.

(** * Properties *)

Ltac split_ands :=
  repeat match goal with |- _ /\ _ => split end.

(** ** The call-signature parser *)

Section Split.

Variable c : ascii.

Lemma split_no_occurrence (s : string) :
  occurs c s = false -> JS.split c s = [s].
Proof.
  induction s as [|x r IH]; simpl; [reflexivity|].
  intros H. apply orb_false_iff in H as [Hx Hr].
  rewrite Hx, (IH Hr). reflexivity.
Qed.

Lemma split_app (s1 s2 : string) :
  occurs c s1 = false ->
  JS.split c (s1 ++ String c s2) = s1 :: JS.split c s2.
Proof.
  induction s1 as [|x r IH]; simpl.
  - intros _. rewrite Ascii.eqb_refl. reflexivity.
  - intros H. apply orb_false_iff in H as [Hx Hr].
    rewrite Hx, (IH Hr). reflexivity.
Qed.

Lemma occurs_app (s1 s2 : string) :
  occurs c (s1 ++ s2) = occurs c s1 || occurs c s2.
Proof.
  induction s1 as [|x r IH]; simpl; [reflexivity|].
  rewrite IH, orb_assoc. reflexivity.
Qed.

End Split.

Lemma is_token_inv (s : string) :
  is_token s = true ->
  s <> EmptyString /\ occurs "(" s = false /\ occurs ")" s = false
  /\ occurs "," s = false.
Proof.
  unfold is_token. intros H.
  repeat (apply andb_true_iff in H as [H ?]).
  repeat split; try (apply negb_true_iff; assumption).
  intros ->. discriminate.
Qed.

Lemma occurs_join (c : ascii) (l : list string) :
  c <> ","%char ->
  Forall (fun s => occurs c s = false) l ->
  occurs c (JS.join "," l) = false.
Proof.
  intros Hc. induction 1 as [|x r Hx Hr IH]; [reflexivity|].
  destruct r as [|y r']; [exact Hx|].
  change (JS.join "," (x :: y :: r'))
    with (x ++ String "," (JS.join "," (y :: r')))%string.
  rewrite occurs_app, Hx. cbn [occurs orb].
  destruct (Ascii.eqb_spec ","%char c) as [E|_]; [congruence|].
  exact IH.
Qed.

Lemma split_join (l : list string) :
  l <> [] ->
  Forall (fun s => occurs "," s = false) l ->
  JS.split "," (JS.join "," l) = l.
Proof.
  intros Hne H. induction H as [|x r Hx Hr IH]; [congruence|].
  destruct r as [|y r'].
  - simpl. apply split_no_occurrence. exact Hx.
  - change (JS.join "," (x :: y :: r'))
      with (x ++ String "," (JS.join "," (y :: r')))%string.
    rewrite split_app by exact Hx. f_equal. apply IH. discriminate.
Qed.

Lemma string_app_assoc (s t u : string) :
  ((s ++ t) ++ u)%string = (s ++ (t ++ u))%string.
Proof.
  induction s as [|x r IH]; [reflexivity|].
  simpl. rewrite IH. reflexivity.
Qed.

Lemma last_char_app_one (s : string) (c : ascii) :
  JS.last_char (s ++ String c EmptyString) = Some c.
Proof.
  induction s as [|x r IH]; [reflexivity|].
  simpl. rewrite IH. destruct (r ++ String c "")%string eqn:E; [|reflexivity].
  destruct r; discriminate.
Qed.

Lemma substring_prefix (s t : string) :
  substring 0 (String.length s) (s ++ t) = s.
Proof.
  induction s as [|x r IH]; simpl.
  - destruct t; reflexivity.
  - rewrite IH. reflexivity.
Qed.

Lemma length_app_one (s : string) (c : ascii) :
  String.length (s ++ String c EmptyString) - 1 = String.length s.
Proof.
  assert (H : String.length (s ++ String c EmptyString) = S (String.length s)).
  { induction s as [|x r IH]; [reflexivity|].
    cbn [append String.length]. rewrite IH. reflexivity. }
  rewrite H. lia.
Qed.

Lemma strip_paren_closed (s : string) :
  strip_paren (s ++ ")") = s.
Proof.
  unfold strip_paren. rewrite last_char_app_one. simpl.
  rewrite length_app_one. apply substring_prefix.
Qed.

Lemma last_char_occurs (s : string) (c : ascii) :
  JS.last_char s = Some c -> occurs c s = true.
Proof.
  induction s as [|x r IH]; [discriminate|].
  simpl. destruct r as [|y r'].
  - intros [= ->]. rewrite Ascii.eqb_refl. reflexivity.
  - intros H. rewrite (IH H). apply orb_true_r.
Qed.

Lemma strip_paren_open (s : string) :
  occurs ")" s = false -> strip_paren s = s.
Proof.
  intros H. unfold strip_paren.
  destruct (JS.last_char s) as [c|] eqn:E; [|reflexivity].
  destruct (Ascii.eqb_spec c ")") as [->|_]; [|reflexivity].
  apply last_char_occurs in E. congruence.
Qed.

Lemma filter_tokens (l : list string) :
  Forall (fun s => is_token s = true) l -> filter JS.nonempty l = l.
Proof.
  induction 1 as [|x r Hx _ IH]; [reflexivity|].
  simpl. rewrite IH. apply is_token_inv in Hx as [Hx _].
  destruct x; [congruence|reflexivity].
Qed.

(** The types between one pair of parentheses, as the parser recovers
    them from the fragment [t1,...,tn)]. *)
Lemma group_of_tokens (l : list string) :
  Forall (fun s => is_token s = true) l ->
  filter JS.nonempty (JS.split "," (strip_paren (JS.join "," l ++ ")"))) = l.
Proof.
  intros H. rewrite strip_paren_closed.
  destruct l as [|x r]; [reflexivity|].
  rewrite split_join.
  - apply filter_tokens. exact H.
  - discriminate.
  - eapply Forall_impl; [|exact H]. intros s Hs.
    apply is_token_inv in Hs. tauto.
Qed.

Lemma call_groups_signature (f : string) (args rets : list string) :
  is_token f = true ->
  Forall (fun s => is_token s = true) args ->
  Forall (fun s => is_token s = true) rets ->
  call_groups (signature_text f args rets) = [[f]; args; rets].
Proof.
  intros Hf Ha Hr.
  assert (Hopen : forall l, Forall (fun s => is_token s = true) l ->
                            occurs "(" (JS.join "," l) = false).
  { intros l Hl. apply occurs_join; [discriminate|].
    eapply Forall_impl; [|exact Hl]. intros s Hs.
    apply is_token_inv in Hs. tauto. }
  pose proof (is_token_inv f Hf) as (Hne & Hf1 & Hf2 & Hf3).
  unfold call_groups, signature_text.
  change (f ++ "(" ++ JS.join "," args ++ ")(" ++ JS.join "," rets ++ ")")%string
    with (f ++ String "(" (JS.join "," args ++ ")(" ++ JS.join "," rets ++ ")"))%string.
  rewrite split_app by exact Hf1.
  replace (JS.join "," args ++ ")(" ++ JS.join "," rets ++ ")")%string
    with ((JS.join "," args ++ ")") ++ String "(" (JS.join "," rets ++ ")"))%string.
  2:{ rewrite string_app_assoc. reflexivity. }
  rewrite split_app.
  2:{ rewrite occurs_app, (Hopen args Ha). reflexivity. }
  rewrite split_no_occurrence.
  2:{ rewrite occurs_app, (Hopen rets Hr). reflexivity. }
  simpl map.
  rewrite (group_of_tokens args Ha), (group_of_tokens rets Hr).
  rewrite (strip_paren_open f Hf2), (split_no_occurrence _ f Hf3).
  simpl. destruct f; [congruence|reflexivity].
Qed.

(** C8: a signature [f(a1,...,an)(r1,...,rm)] made of a name and of types
    that are not empty and hold no parenthesis or comma, with at least one
    return type, parses into the one-element group [[f]], the argument
    types and the return types, in order; with no argument ([f()(c)]) the
    empty fragment is dropped and the argument types are empty. *)
Theorem destructureContractCall_signature (f : string) (args rets : list string) :
  is_token f = true ->
  Forall (fun s => is_token s = true) args ->
  Forall (fun s => is_token s = true) rets ->
  rets <> [] ->
  destructureContractCall (signature_text f args rets)
  = Ok (mkSig [f] args rets).
Proof.
  intros Hf Ha Hr Hne. unfold destructureContractCall.
  rewrite (call_groups_signature f args rets Hf Ha Hr).
  destruct rets as [|r rs]; [congruence|reflexivity].
Qed.

Lemma destructureContractCall_signature_witness :
  destructureContractCall "f(a,b)(c,d)" = Ok (mkSig ["f"] ["a"; "b"] ["c"; "d"])
  /\ destructureContractCall "f()(c)" = Ok (mkSig ["f"] [] ["c"]).
Proof.
  split.
  - apply (destructureContractCall_signature "f" ["a"; "b"] ["c"; "d"]);
      [reflexivity | repeat constructor | repeat constructor | discriminate].
  - apply (destructureContractCall_signature "f" [] ["c"]);
      [reflexivity | repeat constructor | repeat constructor | discriminate].
Defined.

Lemma two_groups_end (s : string) :
  two_parenthesized_groups s -> JS.last_char s = Some ")"%char.
Proof.
  intros (f & a & r & _ & _ & _ & _ & _ & _ & ->).
  replace (f ++ "(" ++ a ++ ")(" ++ r ++ ")")%string
    with ((f ++ "(" ++ a ++ ")(" ++ r) ++ ")")%string.
  - apply last_char_app_one.
  - repeat rewrite string_app_assoc. reflexivity.
Qed.

(** C4, as stated, fails: ["f(a(b"] has no two parenthesized groups and
    yet parses. *)
Lemma destructureContractCall_unclosed_accepted :
  ~ two_parenthesized_groups "f(a(b"
  /\ destructureContractCall "f(a(b" = Ok (mkSig ["f"] ["a"] ["b"]).
Proof.
  split; [|reflexivity].
  intros H. apply two_groups_end in H. discriminate.
Qed.

(** C4, amended: the outcome of parsing is decided by the third of the
    fragments that '(' separates.  The parser throws its 'Invalid contract
    call' error exactly when that fragment yields no return type, throws a
    TypeError exactly when there are fewer than three fragments, and
    succeeds exactly when the third fragment yields a return type; closing
    parentheses play no part.  ["f()()"] throws the 'Invalid contract call'
    error. *)
Theorem destructureContractCall_outcome (s : string) :
  (destructureContractCall s = Throw InvalidCallNoReturn
   <-> nth_error (call_groups s) 2 = Some [])
  /\ (destructureContractCall s = Throw TypeError
      <-> List.length (JS.split "(" s) < 3)
  /\ ((exists sig, destructureContractCall s = Ok sig)
      <-> exists t ts, nth_error (call_groups s) 2 = Some (t :: ts))
  /\ destructureContractCall "f()()" = Throw InvalidCallNoReturn.
Proof.
  assert (Hlen : List.length (call_groups s) = List.length (JS.split "(" s)).
  { unfold call_groups. rewrite !length_map. reflexivity. }
  unfold destructureContractCall.
  destruct (call_groups s) as [|fn [|ct [|rt rest]]] eqn:E;
    simpl in Hlen; simpl nth_error.
  - repeat split; try discriminate; try lia; try (intros [? [? ?]]; discriminate);
      intros [? ?]; discriminate.
  - repeat split; try discriminate; try lia; try (intros [? [? ?]]; discriminate);
      intros [? ?]; discriminate.
  - repeat split; try discriminate; try lia; try (intros [? [? ?]]; discriminate);
      intros [? ?]; discriminate.
  - destruct rt as [|t ts]; simpl.
    + repeat split; try discriminate; try lia; try reflexivity;
        try (intros [? [? ?]]; discriminate); intros [? ?]; discriminate.
    + repeat split; try discriminate; try lia;
        try (intros _; eexists; reflexivity);
        try (intros _; do 2 eexists; reflexivity).
Qed.

(** ** Connection to the watcher *)

Lemma rootObservable_next_all (e : event) (ls : list listener) (st : state) :
  _rootObservable (fold_left (run_listener e) ls st)
  = _rootObservable st ++ repeat e (List.length ls).
Proof.
  revert st. induction ls as [|l ls IH]; intros st; simpl.
  - rewrite app_nil_r. reflexivity.
  - rewrite IH. destruct l. simpl. rewrite <- app_assoc. reflexivity.
Qed.




(** C9: [disconnect] is an empty stub.  After [createWatcher],
    [startObservable] and [disconnect], the watcher still has its
    subscriber and its next update still reaches the root subject; in any
    state, calling [disconnect] changes nothing. *)
Theorem disconnect_keeps_subscription :
  let st := snd (startObservable
                   (snd (createWatcher true None (constructor (fun _ => None))))) in
  let e := mkEvent "X.bal.0xabc.balance" (JNumber 42) in
  option_map listeners (_watcher (disconnect st)) = Some [NextRoot]
  /\ _rootObservable (watcher_emit e (disconnect st)) = [e]
  /\ forall st' : state, disconnect st' = st'.
Proof.
  repeat split.
Qed.

(** ** Call descriptors *)

Lemma registerObservable_frame prk item idx st :
  _watcher (snd (registerObservable prk item idx st)) = _watcher st
  /\ contractAddresses (snd (registerObservable prk item idx st))
     = contractAddresses st
  /\ _rootSubscription (snd (registerObservable prk item idx st))
     = _rootSubscription st
  /\ _rootObservable (snd (registerObservable prk item idx st))
     = _rootObservable st.
Proof.
  unfold registerObservable.
  destruct (nth_error prk idx) as [[key cb]|]; [|auto].
  destruct (Lodash.merge _ _ _) as [h' store']. auto.
Qed.

Lemma forEachObservable_frame prk items idx st :
  _watcher (snd (forEachObservable prk items idx st)) = _watcher st
  /\ contractAddresses (snd (forEachObservable prk items idx st))
     = contractAddresses st
  /\ _rootSubscription (snd (forEachObservable prk items idx st))
     = _rootSubscription st
  /\ _rootObservable (snd (forEachObservable prk items idx st))
     = _rootObservable st.
Proof.
  revert idx st. induction items as [|item rest IH]; intros idx st; [simpl; auto|].
  simpl. pose proof (registerObservable_frame prk item idx st) as F.
  destruct (registerObservable prk item idx st) as [[u|e] st1]; simpl in F.
  - specialize (IH (S idx) st1). destruct IH as (A & B & C & D).
    destruct F as (A' & B' & C' & D'). rewrite A, B, C, D. auto.
  - exact F.
Qed.

Lemma forEachObservable_ok prk items idx st :
  idx + List.length items <= List.length prk ->
  fst (forEachObservable prk items idx st) = Ok tt.
Proof.
  revert idx st. induction items as [|item rest IH]; intros idx st H; [reflexivity|].
  simpl in *. unfold registerObservable.
  destruct (nth_error prk idx) as [[key cb]|] eqn:E.
  - destruct (Lodash.merge _ _ _) as [h' store']. apply IH. lia.
  - apply nth_error_None in E. lia.
Qed.

Lemma with_aliases_resolve addresses name :
  with_aliases addresses name = resolveAddress addresses name.
Proof.
  unfold with_aliases, resolveAddress.
  destruct (String.eqb name "MWETH"); [reflexivity|].
  destruct (String.eqb name "MDAI"); reflexivity.
Qed.

Lemma callKey_parsed s sig :
  destructureContractCall (Logical.contractCall s) = Ok sig ->
  callKeyStructure s (callFnName sig) = callKey s.
Proof.
  intros H. unfold callKey, fnName, callKeyStructure, callArgsIdentifiers,
    argIdentifiers. rewrite H.
  destruct (Logical.callArgsOverrides s); [reflexivity|].
  rewrite map_map. reflexivity.
Qed.

Lemma processedReturnKeys_parsed s sig :
  destructureContractCall (Logical.contractCall s) = Ok sig ->
  processedReturnKeys s (callFnName sig)
  = map (fullyQualified s) (Logical.returnKeys s).
Proof.
  intros H. unfold processedReturnKeys. rewrite (callKey_parsed s sig H).
  apply map_ext. intros [key f]. reflexivity.
Qed.

Lemma processedCallArgs_transformed s :
  processedCallArgs s = map apply_transform (Logical.callArgs s).
Proof.
  unfold processedCallArgs. apply map_ext. intros [v [f|]]; reflexivity.
Qed.

Lemma reducer_valid acc s st :
  valid_schema s = true ->
  fst (reducer acc s st)
  = Ok (acc ++ [expected_descriptor (contractAddresses st) s]).
Proof.
  unfold valid_schema, reducer, expected_descriptor.
  destruct (destructureContractCall (Logical.contractCall s)) as [sig|e] eqn:P;
    [|discriminate].
  intros H. apply andb_true_iff in H as [H H3].
  apply andb_true_iff in H as [H1 H2].
  rewrite H1, H2. simpl negb. cbv iota.
  apply Nat.leb_le in H3.
  pose proof (forEachObservable_ok
                (processedReturnKeys s (callFnName sig))
                (Logical.observableKeys s) 0 st) as Hok.
  unfold processedReturnKeys in Hok at 1. rewrite length_map in Hok.
  specialize (Hok H3).
  destruct (forEachObservable _ _ 0 st) as [[u|e] st1]; simpl in Hok;
    [|discriminate].
  cbn [fst]. rewrite with_aliases_resolve, processedCallArgs_transformed,
    (processedReturnKeys_parsed s sig P).
  reflexivity.
Qed.

Lemma reducer_frame acc s st :
  _watcher (snd (reducer acc s st)) = _watcher st
  /\ contractAddresses (snd (reducer acc s st)) = contractAddresses st
  /\ _rootSubscription (snd (reducer acc s st)) = _rootSubscription st
  /\ _rootObservable (snd (reducer acc s st)) = _rootObservable st.
Proof.
  unfold reducer.
  destruct (destructureContractCall _) as [sig|e]; [|auto].
  destruct (negb _); [auto|]. destruct (negb _); [auto|].
  pose proof (forEachObservable_frame (processedReturnKeys s (callFnName sig))
                (Logical.observableKeys s) 0 st) as F.
  destruct (forEachObservable _ _ 0 st) as [[u|e] st1]; exact F.
Qed.

Lemma reduce_frame schemas acc st :
  _watcher (snd (reduce schemas acc st)) = _watcher st
  /\ contractAddresses (snd (reduce schemas acc st)) = contractAddresses st
  /\ _rootSubscription (snd (reduce schemas acc st)) = _rootSubscription st
  /\ _rootObservable (snd (reduce schemas acc st)) = _rootObservable st.
Proof.
  revert acc st. induction schemas as [|s rest IH]; intros acc st; [simpl; auto|].
  simpl. pose proof (reducer_frame acc s st) as F.
  destruct (reducer acc s st) as [[acc'|e] st1]; simpl in F; [|exact F].
  destruct (IH acc' st1) as (A & B & C & D).
  destruct F as (A' & B' & C' & D'). rewrite A, B, C, D. auto.
Qed.

Lemma reduce_valid schemas acc st :
  Forall (fun s => valid_schema s = true) schemas ->
  fst (reduce schemas acc st)
  = Ok (acc ++ map (expected_descriptor (contractAddresses st)) schemas).
Proof.
  intros H. revert acc st.
  induction H as [|s rest Hs _ IH]; intros acc st.
  - simpl. rewrite app_nil_r. reflexivity.
  - simpl. pose proof (reducer_valid acc s st Hs) as R.
    pose proof (reducer_frame acc s st) as (_ & F & _).
    destruct (reducer acc s st) as [[acc'|e] st1]; simpl in R, F;
      [|discriminate].
    injection R as ->. rewrite IH, F, <- app_assoc. reflexivity.
Qed.

Lemma reduce_app pre post acc st :
  reduce (pre ++ post) acc st
  = match reduce pre acc st with
    | (Ok acc', st') => reduce post acc' st'
    | (Throw e, st') => (Throw e, st')
    end.
Proof.
  revert acc st. induction pre as [|s rest IH]; intros acc st; [reflexivity|].
  simpl. destruct (reducer acc s st) as [[acc'|e] st1]; [apply IH|reflexivity].
Qed.

(** C5: when every entry of a registration is valid, the watcher's call
    list afterwards is the former list followed by one descriptor for each
    entry, in order: its target is the address resolved for the contract
    name, its call is the signature text followed by the call arguments,
    each passed through its function when it has one, and its returns are
    the return keys, each prefixed with the Call Key and a dot and paired
    with its optional function. *)
Theorem registerLogicalSchema_descriptors
    (schemas : list Logical.schema) (st : state) (w : Watcher) :
  _watcher st = Some w ->
  Forall (fun s => valid_schema s = true) schemas ->
  fst (registerLogicalSchema schemas st)
  = Ok (observableStore (snd (registerLogicalSchema schemas st)))
  /\ _watcher (snd (registerLogicalSchema schemas st))
     = Some (mkWatcher
               (model w
                  ++ map (expected_descriptor (contractAddresses st)) schemas)
               (listeners w)).
Proof.
  intros Hw Hv. unfold registerLogicalSchema. rewrite Hw.
  pose proof (reduce_valid schemas [] st Hv) as R.
  destruct (reduce schemas [] st) as [[d|e] st1]; simpl in R; [|discriminate].
  injection R as ->. simpl. auto.
Qed.

Lemma registerLogicalSchema_descriptors_witness :
  _watcher (snd (registerLogicalSchema [balance_schema] connected))
  = Some (mkWatcher
            [mkDescriptor None [JString "bal(addr)(uint)"; JString "0xabc"]
               [("X.bal.0xabc.balance", None)]] []).
Proof.
  apply (registerLogicalSchema_descriptors [balance_schema] connected
           (mkWatcher [] []));
    [reflexivity | repeat constructor].
Defined.

(** ** Arity errors *)

(** C3, as stated, fails: when the second entry of a call has one call
    argument too few, the call throws, the observable of the first entry is
    in the registry and yet its descriptor has not reached the watcher. *)
Lemma registerLogicalSchema_no_partial_submission :
  let r := registerLogicalSchema [balance_schema; balance_schema_no_arg]
             connected in
  fst r = Throw CallArityMismatch
  /\ getObservable (snd r) "x.balance" = Some (Stream 0)
  /\ option_map model (_watcher (snd r)) = Some []
  /\ option_map model (_watcher (snd r))
     <> Some [expected_descriptor (contractAddresses connected) balance_schema].
Proof.
  repeat split. discriminate.
Qed.

Lemma reducer_mismatch acc bad st sig :
  destructureContractCall (Logical.contractCall bad) = Ok sig ->
  List.length (callTypes sig) <> List.length (Logical.callArgs bad)
  \/ List.length (returnTypes sig) <> List.length (Logical.returnKeys bad) ->
  reducer acc bad st
  = (Throw (if Nat.eqb (List.length (callTypes sig))
                       (List.length (Logical.callArgs bad))
            then ReturnArityMismatch else CallArityMismatch), st).
Proof.
  intros P H. unfold reducer. rewrite P.
  destruct (Nat.eqb_spec (List.length (callTypes sig))
              (List.length (Logical.callArgs bad))) as [E1|N1]; simpl;
    [|reflexivity].
  destruct (Nat.eqb_spec (List.length (returnTypes sig))
              (List.length (Logical.returnKeys bad))) as [E2|N2]; simpl;
    [|reflexivity].
  destruct H; contradiction.
Qed.

(** C3, amended: a registration call holding an entry whose signature
    parses but whose count of call arguments, or of return keys, is not
    the signature's, all entries before it being valid, throws the arity
    error (the one about call arguments when both counts are off).  The
    failing entry and those after it leave the registry untouched, and the
    watcher's call list is as before the call: no descriptor is submitted,
    not even for the earlier entries.  The registry is what registering
    the earlier entries alone gives: their observables stay registered. *)
Theorem registerLogicalSchema_arity_mismatch
    (pre post : list Logical.schema) (bad : Logical.schema)
    (st : state) (w : Watcher) (sig : CallSignature) :
  _watcher st = Some w ->
  Forall (fun s => valid_schema s = true) pre ->
  destructureContractCall (Logical.contractCall bad) = Ok sig ->
  List.length (callTypes sig) <> List.length (Logical.callArgs bad)
  \/ List.length (returnTypes sig) <> List.length (Logical.returnKeys bad) ->
  fst (registerLogicalSchema (pre ++ bad :: post) st)
  = Throw (if Nat.eqb (List.length (callTypes sig))
                      (List.length (Logical.callArgs bad))
           then ReturnArityMismatch else CallArityMismatch)
  /\ _watcher (snd (registerLogicalSchema (pre ++ bad :: post) st)) = Some w
  /\ observableStore (snd (registerLogicalSchema (pre ++ bad :: post) st))
     = observableStore (snd (registerLogicalSchema pre st))
  /\ streams (snd (registerLogicalSchema (pre ++ bad :: post) st))
     = streams (snd (registerLogicalSchema pre st)).
Proof.
  intros Hw Hv P H. unfold registerLogicalSchema. rewrite Hw, reduce_app.
  pose proof (reduce_valid pre [] st Hv) as R.
  pose proof (reduce_frame pre [] st) as (F & _).
  destruct (reduce pre [] st) as [[d|e] st1]; simpl in R, F; [|discriminate].
  cbn [reduce]. rewrite (reducer_mismatch d bad st1 sig P H).
  cbn [fst snd]. rewrite F, Hw. auto.
Qed.

Lemma registerLogicalSchema_arity_mismatch_witness :
  let r := registerLogicalSchema [balance_schema; balance_schema_no_arg]
             connected in
  fst r = Throw CallArityMismatch
  /\ _watcher (snd r) = Some (mkWatcher [] [])
  /\ observableStore (snd r) = Obj [("x", Obj [("balance", Stream 0)])]
  /\ List.length (streams (snd r)) = 1.
Proof.
  destruct (registerLogicalSchema_arity_mismatch [balance_schema] []
              balance_schema_no_arg connected (mkWatcher [] [])
              (mkSig ["bal"] ["addr"] ["uint"]) eq_refl
              ltac:(repeat constructor) eq_refl
              ltac:(left; simpl; lia)) as (H1 & H2 & H3 & H4).
  cbn [app] in H1, H2, H3, H4. cbv zeta.
  rewrite H4. split; [exact H1|]. split; [exact H2|]. split; [exact H3|].
  reflexivity.
Defined.

(** ** Registry values *)

Lemma keys_ok_cons k v r :
  keys_ok (Obj ((k, v) :: r))
  = negb (has_key k r) && keys_ok v && keys_ok (Obj r).
Proof. reflexivity. Qed.

Lemma forall_ids_cons p k v r :
  forall_ids p (Obj ((k, v) :: r))
  = forall_ids p v && forall_ids p (Obj r).
Proof. reflexivity. Qed.

Lemma lookup_set_same k v f :
  lookup k (set_field k v f) = Some v.
Proof.
  induction f as [|[k' v'] r IH]; simpl.
  - rewrite String.eqb_refl. reflexivity.
  - destruct (String.eqb k k') eqn:E; simpl; rewrite E; [reflexivity | exact IH].
Qed.


Lemma set_field_fresh k v f :
  lookup k f = None -> set_field k v f = f ++ [(k, v)].
Proof.
  induction f as [|[k' v'] r IH]; simpl; [reflexivity|].
  destruct (String.eqb k k'); [discriminate|].
  intros H. rewrite (IH H). reflexivity.
Qed.

Lemma lookup_app_fresh k f g :
  lookup k f = None -> lookup k (f ++ g) = lookup k g.
Proof.
  induction f as [|[k' v'] r IH]; simpl; [reflexivity|].
  destruct (String.eqb k k'); [discriminate | exact IH].
Qed.

(** ** lodash [merge] *)

Lemma mergeValue_obj sf h ov :
  Lodash.mergeValue (Obj sf) h ov
  = match ov with
    | Some (Stream i) =>
        let '(h', p') := Lodash.baseMerge sf h (stream_props h i) in
        (set_props h' i p', Stream i)
    | Some (Obj df) =>
        let '(h', df') := Lodash.baseMerge sf h df in (h', Obj df')
    | None =>
        let '(h', df') := Lodash.baseMerge sf h [] in (h', Obj df')
    end.
Proof. destruct ov as [[i|df]|]; reflexivity. Qed.

Lemma baseMerge_cons k v rest h dst :
  Lodash.baseMerge ((k, v) :: rest) h dst
  = let '(h1, nv) := Lodash.mergeValue v h (lookup k dst) in
    Lodash.baseMerge rest h1 (set_field k nv dst).
Proof. reflexivity. Qed.

(** Merging a well-formed object into [{}] copies it: the first step of
    [merge({}, store, entry)] rebuilds the store, key for key. *)
Lemma baseMerge_copy (n : node) :
  keys_ok n = true -> forall h, Lodash.mergeValue n h None = (h, n).
Proof.
  apply (node_fields_ind
           (fun n => keys_ok n = true ->
                     forall h, Lodash.mergeValue n h None = (h, n))
           (fun f => keys_ok (Obj f) = true ->
                     forall h dst,
                       (forall k, has_key k f = true -> lookup k dst = None) ->
                       Lodash.baseMerge f h dst = (h, dst ++ f))).
  - intros i _ h. reflexivity.
  - intros f IH K h. rewrite mergeValue_obj, (IH K h []); [reflexivity|].
    reflexivity.
  - intros _ h dst _. simpl. rewrite app_nil_r. reflexivity.
  - intros k v r IHv IHr K h dst D.
    rewrite keys_ok_cons in K.
    apply andb_true_iff in K as [K Kr]. apply andb_true_iff in K as [Kk Kv].
    apply negb_true_iff in Kk.
    rewrite baseMerge_cons.
    assert (Dk : lookup k dst = None).
    { apply D. simpl. rewrite String.eqb_refl. reflexivity. }
    rewrite Dk, (IHv Kv h), (set_field_fresh _ _ _ Dk), (IHr Kr).
    + rewrite <- app_assoc. reflexivity.
    + intros k' Hk'. rewrite lookup_app_fresh.
      * simpl. destruct (String.eqb_spec k' k) as [->|_]; [|reflexivity].
        rewrite Kk in Hk'. discriminate.
      * apply D. simpl. rewrite Hk'. apply orb_true_r.
Qed.

Lemma baseMerge_copy_fields f h :
  keys_ok (Obj f) = true -> Lodash.baseMerge f h [] = (h, f).
Proof.
  intros K. pose proof (baseMerge_copy (Obj f) K h) as H.
  rewrite mergeValue_obj in H.
  destruct (Lodash.baseMerge f h []) as [h' f'].
  injection H as -> ->. reflexivity.
Qed.

Lemma merge_store f h entry :
  keys_ok (Obj f) = true ->
  Lodash.merge h (Obj f) entry
  = let '(h2, d2) := Lodash.baseMerge (fields_of h entry) h f in (h2, Obj d2).
Proof.
  intros K. unfold Lodash.merge. simpl fields_of at 1.
  rewrite (baseMerge_copy_fields f h K). reflexivity.
Qed.

(** ** Stream objects in the heap *)

Lemma set_props_length h i p : List.length (set_props h i p) = List.length h.
Proof.
  revert i. induction h as [|o r IH]; intros [|j]; simpl; auto.
Qed.

Lemma stream_props_set_same h i p :
  i < List.length h -> stream_props (set_props h i p) i = p.
Proof.
  unfold stream_props. revert i.
  induction h as [|o r IH]; intros [|j] H; simpl in *; try lia; [reflexivity|].
  apply IH. lia.
Qed.

Lemma stream_props_set_other h i j p :
  j <> i -> stream_props (set_props h i p) j = stream_props h j.
Proof.
  unfold stream_props. revert i j.
  induction h as [|o r IH]; intros [|i] [|j] N; simpl; try reflexivity;
    try congruence.
  apply IH. congruence.
Qed.

Lemma emits_set_props h i p :
  map emits (set_props h i p) = map emits h.
Proof.
  revert i. induction h as [|o r IH]; intros [|j]; simpl; try reflexivity.
  rewrite IH. reflexivity.
Qed.

Lemma stream_props_app h o i :
  i < List.length h -> stream_props (h ++ [o]) i = stream_props h i.
Proof.
  intros H. unfold stream_props. rewrite nth_error_app1 by exact H.
  reflexivity.
Qed.

Lemma stream_props_beyond h i :
  List.length h <= i -> stream_props h i = [].
Proof.
  intros H. unfold stream_props.
  destruct (nth_error h i) eqn:E; [|reflexivity].
  apply nth_error_None in H. congruence.
Qed.

Lemma heap_ok_inv hi h :
  heap_ok hi 0 h = true <-> heap_inv hi h.
Proof.
  assert (G : forall i0,
             heap_ok hi i0 h = true <->
             (forall i,
                 keys_ok (Obj (stream_props h i)) = true
                 /\ forall_ids (between (S (i0 + i)) hi)
                      (Obj (stream_props h i)) = true)).
  { induction h as [|o r IH]; intros i0.
    - simpl. split; [|reflexivity]. intros _ i.
      unfold stream_props. destruct i; simpl; auto.
    - cbn [heap_ok]. rewrite !andb_true_iff, (IH (S i0)). split.
      + intros [[K F] R] [|i].
        * unfold stream_props. simpl. rewrite Nat.add_0_r. auto.
        * specialize (R i). rewrite Nat.add_succ_r.
          unfold stream_props in *. simpl. exact R.
      + intros H. split.
        * specialize (H 0). unfold stream_props in H. simpl in H.
          rewrite Nat.add_0_r in H. tauto.
        * intros i. specialize (H (S i)). rewrite Nat.add_succ_r in H.
          unfold stream_props in *. simpl in H. exact H. }
  exact (G 0).
Qed.

(** ** Invariants of registry values *)

Lemma forall_ids_impl (p q : nat -> bool) (n : node) :
  (forall i, p i = true -> q i = true) ->
  forall_ids p n = true -> forall_ids q n = true.
Proof.
  intros I.
  apply (node_fields_ind
           (fun n => forall_ids p n = true -> forall_ids q n = true)
           (fun f => forall_ids p (Obj f) = true -> forall_ids q (Obj f) = true)).
  - intros i. simpl. apply I.
  - auto.
  - auto.
  - intros k v r IHv IHr. rewrite !forall_ids_cons, !andb_true_iff.
    intros [A B]. auto.
Qed.

Lemma between_weaken lo hi lo' hi' i :
  lo' <= lo -> hi <= hi' -> between lo hi i = true -> between lo' hi' i = true.
Proof.
  unfold between. rewrite !andb_true_iff, !Nat.leb_le, !Nat.ltb_lt. lia.
Qed.

Lemma between_spec lo hi i : between lo hi i = true <-> lo <= i < hi.
Proof.
  unfold between. rewrite andb_true_iff, Nat.leb_le, Nat.ltb_lt. tauto.
Qed.

Lemma forall_ids_lookup p f k c :
  forall_ids p (Obj f) = true -> lookup k f = Some c -> forall_ids p c = true.
Proof.
  induction f as [|[k' v] r IH]; [discriminate|].
  rewrite forall_ids_cons, andb_true_iff. intros [A B]. simpl.
  destruct (String.eqb k k'); [intros [= <-]; exact A | apply IH; exact B].
Qed.

Lemma keys_ok_lookup f k c :
  keys_ok (Obj f) = true -> lookup k f = Some c -> keys_ok c = true.
Proof.
  induction f as [|[k' v] r IH]; [discriminate|].
  rewrite keys_ok_cons, !andb_true_iff. intros [[A B] C]. simpl.
  destruct (String.eqb k k'); [intros [= <-]; exact B | apply IH; exact C].
Qed.

Lemma has_key_set_field k k' v f :
  has_key k' (set_field k v f) = has_key k' f || String.eqb k' k.
Proof.
  induction f as [|[k0 v0] r IH]; simpl.
  - rewrite orb_false_r. reflexivity.
  - destruct (String.eqb_spec k k0) as [->|N]; simpl.
    + destruct (String.eqb k' k0), (has_key k' r); reflexivity.
    + rewrite IH. destruct (String.eqb k' k0); reflexivity.
Qed.

Lemma keys_ok_set_field k v f :
  keys_ok (Obj f) = true -> keys_ok v = true ->
  keys_ok (Obj (set_field k v f)) = true.
Proof.
  intros Kf Kv. induction f as [|[k0 v0] r IH].
  - simpl. rewrite Kv. reflexivity.
  - rewrite keys_ok_cons, !andb_true_iff in Kf. destruct Kf as [[A B] C].
    cbn [set_field]. destruct (String.eqb_spec k k0) as [->|N].
    + rewrite keys_ok_cons, A, Kv, C. reflexivity.
    + rewrite keys_ok_cons, has_key_set_field, (IH C), B.
      apply negb_true_iff in A. rewrite A.
      destruct (String.eqb_spec k0 k); [congruence | reflexivity].
Qed.

Lemma forall_ids_set_field p k v f :
  forall_ids p (Obj f) = true -> forall_ids p v = true ->
  forall_ids p (Obj (set_field k v f)) = true.
Proof.
  intros Ff Fv. induction f as [|[k0 v0] r IH].
  - simpl. rewrite Fv. reflexivity.
  - rewrite forall_ids_cons, andb_true_iff in Ff. destruct Ff as [A B].
    cbn [set_field]. destruct (String.eqb k k0).
    + rewrite forall_ids_cons, Fv, B. reflexivity.
    + rewrite forall_ids_cons, A, (IH B). reflexivity.
Qed.

(** ** Merging a one-path entry *)

Lemma put_leaf k s h dst :
  put k [] s h dst = (h, set_field k (Stream s) dst).
Proof. reflexivity. Qed.

Lemma put_step k k2 r s h dst :
  put k (k2 :: r) s h dst
  = match lookup k dst with
    | Some (Stream i) =>
        let '(h', p') := put k2 r s h (stream_props h i) in
        (set_props h' i p', set_field k (Stream i) dst)
    | Some (Obj df) =>
        let '(h', df') := put k2 r s h df in
        (h', set_field k (Obj df') dst)
    | None =>
        let '(h', df') := put k2 r s h [] in
        (h', set_field k (Obj df') dst)
    end.
Proof.
  unfold put. rewrite baseMerge_cons.
  change (nest (k2 :: r) (Stream s)) with (Obj [(k2, nest r (Stream s))]).
  rewrite mergeValue_obj.
  destruct (lookup k dst) as [[i|df]|].
  - destruct (Lodash.baseMerge _ h (stream_props h i)); reflexivity.
  - destruct (Lodash.baseMerge _ h df); reflexivity.
  - destruct (Lodash.baseMerge _ h []); reflexivity.
Qed.

Lemma heap_inv_weaken hi hi' h :
  hi <= hi' -> heap_inv hi h -> heap_inv hi' h.
Proof.
  intros L H i. destruct (H i) as [K F]. split; [exact K|].
  eapply forall_ids_impl; [|exact F].
  intros j. apply between_weaken; lia.
Qed.

Lemma fields_of_set_props h i x n hi :
  forall_ids (between (S i) hi) n = true ->
  fields_of (set_props h i x) n = fields_of h n.
Proof.
  destruct n as [j|f]; [|reflexivity].
  simpl. intros B. apply between_spec in B.
  apply stream_props_set_other. lia.
Qed.

(** Writing the properties of stream [i] is not seen from values that only
    refer to streams made after [i]. *)
Lemma walk_set_props hi h i x :
  heap_inv hi h ->
  forall q n,
    forall_ids (between (S i) hi) n = true ->
    Lodash.walk (set_props h i x) n q = Lodash.walk h n q.
Proof.
  intros H. induction q as [|k r IH]; intros n F; [reflexivity|].
  cbn [Lodash.walk]. rewrite (fields_of_set_props h i x n hi F).
  destruct (lookup k (fields_of h n)) as [c|] eqn:E; [|reflexivity].
  apply IH. destruct n as [j|f].
  - simpl in F, E. apply between_spec in F.
    destruct (H j) as [_ Fj].
    eapply forall_ids_impl; [|exact (forall_ids_lookup _ _ _ _ Fj E)].
    intros m. apply between_weaken; lia.
  - exact (forall_ids_lookup _ _ _ _ F E).
Qed.

Lemma put_inv (rest : list string) :
  forall k s h dst lo,
    heap_inv s h -> s < List.length h -> lo <= s ->
    keys_ok (Obj dst) = true ->
    forall_ids (between lo s) (Obj dst) = true ->
    List.length (fst (put k rest s h dst)) = List.length h
    /\ map emits (fst (put k rest s h dst)) = map emits h
    /\ heap_inv (S s) (fst (put k rest s h dst))
    /\ keys_ok (Obj (snd (put k rest s h dst))) = true
    /\ forall_ids (between lo (S s)) (Obj (snd (put k rest s h dst))) = true
    /\ (forall i, i < lo ->
          stream_props (fst (put k rest s h dst)) i = stream_props h i)
    /\ Lodash.walk (fst (put k rest s h dst)) (Obj (snd (put k rest s h dst)))
         (k :: rest) = Some (Stream s).
Proof.
  induction rest as [|k2 r IH]; intros k s h dst lo Hh Hs Hlo Kd Fd.
  - rewrite put_leaf. cbn [fst snd].
    assert (Fs : forall_ids (between lo (S s)) (Stream s) = true).
    { simpl. apply between_spec. lia. }
    split_ands; try reflexivity.
    + apply (heap_inv_weaken s); [lia | apply Hh].
    + apply keys_ok_set_field; [exact Kd | reflexivity].
    + apply forall_ids_set_field; [|exact Fs].
      eapply forall_ids_impl; [|exact Fd].
      intros j. apply between_weaken; lia.
    + cbn [Lodash.walk fields_of]. rewrite lookup_set_same. reflexivity.
  - rewrite put_step.
    assert (Fd' : forall_ids (between lo (S s)) (Obj dst) = true).
    { eapply forall_ids_impl; [|exact Fd].
      intros j. apply between_weaken; lia. }
    destruct (lookup k dst) as [[i|df]|] eqn:E.
    + pose proof (forall_ids_lookup _ _ _ _ Fd E) as Fi. simpl in Fi.
      apply between_spec in Fi.
      destruct (Hh i) as [Ki Fpi].
      specialize (IH k2 s h (stream_props h i) (S i) Hh Hs
                    ltac:(lia) Ki Fpi).
      destruct (put k2 r s h (stream_props h i)) as [h1 p'].
      cbn [fst snd] in *.
      destruct IH as (L & Em & Hh1 & Kp & Fp & Fr & W).
      assert (Il : i < List.length h1) by lia.
      split_ands.
      * rewrite set_props_length. exact L.
      * rewrite emits_set_props. exact Em.
      * intros i0. destruct (Nat.eq_dec i0 i) as [->|N].
        -- rewrite (stream_props_set_same h1 i p' Il). auto.
        -- rewrite (stream_props_set_other h1 i i0 p' N). apply Hh1.
      * apply keys_ok_set_field; [exact Kd | reflexivity].
      * apply forall_ids_set_field; [exact Fd'|].
        simpl. apply between_spec. lia.
      * intros j Hj. rewrite stream_props_set_other by lia.
        apply Fr. lia.
      * cbn [Lodash.walk fields_of]. rewrite lookup_set_same.
        cbn [Lodash.walk fields_of].
        rewrite (stream_props_set_same h1 i p' Il).
        cbn [Lodash.walk fields_of] in W.
        destruct (lookup k2 p') as [c|] eqn:Ec; [|discriminate].
        rewrite <- W.
        apply (walk_set_props (S s) h1 i p' Hh1 r).
        exact (forall_ids_lookup _ _ _ _ Fp Ec).
    + pose proof (forall_ids_lookup _ _ _ _ Fd E) as Ff.
      pose proof (keys_ok_lookup _ _ _ Kd E) as Kf.
      specialize (IH k2 s h df lo Hh Hs Hlo Kf Ff).
      destruct (put k2 r s h df) as [h1 df'].
      cbn [fst snd] in *.
      destruct IH as (L & Em & Hh1 & Kp & Fp & Fr & W).
      split_ands; try assumption.
      * apply keys_ok_set_field; assumption.
      * apply forall_ids_set_field; assumption.
      * cbn [Lodash.walk fields_of]. rewrite lookup_set_same. exact W.
    + specialize (IH k2 s h [] lo Hh Hs Hlo eq_refl eq_refl).
      destruct (put k2 r s h []) as [h1 df'].
      cbn [fst snd] in *.
      destruct IH as (L & Em & Hh1 & Kp & Fp & Fr & W).
      split_ands; try assumption.
      * apply keys_ok_set_field; assumption.
      * apply forall_ids_set_field; assumption.
      * cbn [Lodash.walk fields_of]. rewrite lookup_set_same. exact W.
Qed.

(** ** Registration keeps the registry well formed *)

Lemma wf_state_spec st :
  wf_state st = true <->
  exists f,
    observableStore st = Obj f
    /\ keys_ok (Obj f) = true
    /\ forall_ids (between 0 (List.length (streams st))) (Obj f) = true
    /\ heap_inv (List.length (streams st)) (streams st).
Proof.
  unfold wf_state. rewrite !andb_true_iff, heap_ok_inv. split.
  - intros [[[O K] F] H]. destruct (observableStore st) as [i|f]; [discriminate|].
    exists f. auto.
  - intros (f & -> & K & F & H). auto.
Qed.

Lemma heap_inv_alloc h e :
  heap_inv (List.length h) h -> heap_inv (List.length h) (h ++ [mkStream e []]).
Proof.
  intros H i. destruct (Nat.lt_ge_cases i (List.length h)) as [L|G].
  - rewrite stream_props_app by exact L. apply H.
  - destruct (Nat.eq_dec i (List.length h)) as [->|N].
    + unfold stream_props. rewrite nth_error_app2, Nat.sub_diag by lia.
      split; reflexivity.
    + rewrite stream_props_beyond; [split; reflexivity|].
      rewrite length_app. simpl. lia.
Qed.

Lemma registerObservable_register prk item idx st key cb :
  nth_error prk idx = Some (key, cb) ->
  registerObservable prk item idx st
  = (Ok tt, register item (filteredObservable key) st).
Proof.
  intros E. unfold registerObservable, register. rewrite E.
  destruct (Lodash.merge _ _ _) as [h' store']. reflexivity.
Qed.


(** The state after a registration, read through [put]. *)
Lemma register_put k rest e st f :
  observableStore st = Obj f ->
  keys_ok (Obj f) = true ->
  let h := streams st ++ [mkStream e []] in
  let r := put k rest (List.length (streams st)) h f in
  observableStore (register (k :: rest) e st) = Obj (snd r)
  /\ streams (register (k :: rest) e st) = fst r.
Proof.
  intros O K h r.
  assert (E : Lodash.merge h (Obj f)
                (nest (k :: rest) (Stream (List.length (streams st))))
              = (fst r, Obj (snd r))).
  { rewrite (merge_store f _ _ K). unfold r, put.
    cbn [nest fold_right fields_of].
    destruct (Lodash.baseMerge _ h f) as [h2 d2]. reflexivity. }
  unfold register. rewrite O. fold h. rewrite E. auto.
Qed.

Lemma register_empty_path e st f :
  observableStore st = Obj f ->
  keys_ok (Obj f) = true ->
  observableStore (register [] e st) = Obj f
  /\ streams (register [] e st) = streams st ++ [mkStream e []].
Proof.
  intros O K. unfold register. rewrite O, (merge_store f _ _ K).
  cbn [nest fold_right fields_of]. unfold stream_props.
  rewrite nth_error_app2, Nat.sub_diag by lia. simpl. auto.
Qed.

Lemma register_wf path e st :
  wf_state st = true ->
  wf_state (register path e st) = true
  /\ List.length (streams (register path e st)) = S (List.length (streams st))
  /\ map emits (streams (register path e st))
     = map emits (streams st) ++ [e].
Proof.
  intros W. apply wf_state_spec in W as (f & O & K & F & H).
  rewrite wf_state_spec.
  destruct path as [|k rest].
  - destruct (register_empty_path e st f O K) as [O' S'].
    rewrite O', S', length_app, map_app. cbn [List.length map].
    split_ands; [|lia|reflexivity].
    exists f. split_ands; [reflexivity | exact K | |].
    + eapply forall_ids_impl; [|exact F]. intros j. apply between_weaken; lia.
    + apply (heap_inv_weaken (List.length (streams st))); [lia|].
      apply heap_inv_alloc. exact H.
  - destruct (register_put k rest e st f O K) as [O' S'].
    set (h := streams st ++ [mkStream e []]) in *.
    assert (Lh : List.length h = S (List.length (streams st))).
    { unfold h. rewrite length_app. simpl. lia. }
    destruct (put_inv rest k (List.length (streams st)) h f 0
                (heap_inv_alloc _ e H) ltac:(lia) ltac:(lia) K F)
      as (L & Em & Hh & Kp & Fp & _ & _).
    rewrite O', S', L, Em, Lh. unfold h. rewrite map_app. simpl.
    split_ands; try reflexivity.
    eexists. split_ands; [reflexivity | exact Kp | exact Fp | exact Hh].
Qed.


(** What a property of the registry needs to hold after every call: that
    one registration keeps it. *)
Section Preserved.

Variable P : state -> Prop.
Hypothesis P_register : forall path e st, P st -> P (register path e st).

Lemma registerObservable_preserves prk item idx st :
  P st -> P (snd (registerObservable prk item idx st)).
Proof.
  intros W. destruct (nth_error prk idx) as [[key cb]|] eqn:E.
  - rewrite (registerObservable_register _ _ _ _ _ _ E).
    apply P_register. exact W.
  - unfold registerObservable. rewrite E. exact W.
Qed.

Lemma forEachObservable_preserves prk items idx st :
  P st -> P (snd (forEachObservable prk items idx st)).
Proof.
  revert idx st. induction items as [|item rest IH]; intros idx st W; [exact W|].
  simpl. pose proof (registerObservable_preserves prk item idx st W) as W1.
  destruct (registerObservable prk item idx st) as [[u|e] st1]; simpl in W1.
  - apply IH. exact W1.
  - exact W1.
Qed.

Lemma reducer_preserves acc s st :
  P st -> P (snd (reducer acc s st)).
Proof.
  intros W. unfold reducer.
  destruct (destructureContractCall _) as [sig|e]; [|exact W].
  destruct (negb _); [exact W|]. destruct (negb _); [exact W|].
  pose proof (forEachObservable_preserves
                (processedReturnKeys s (callFnName sig))
                (Logical.observableKeys s) 0 st W) as W1.
  destruct (forEachObservable _ _ 0 st) as [[u|e] st1]; exact W1.
Qed.

Lemma reduce_preserves schemas acc st :
  P st -> P (snd (reduce schemas acc st)).
Proof.
  revert acc st. induction schemas as [|s rest IH]; intros acc st W; [exact W|].
  simpl. pose proof (reducer_preserves acc s st W) as W1.
  destruct (reducer acc s st) as [[acc'|e] st1]; simpl in W1.
  - apply IH. exact W1.
  - exact W1.
Qed.



End Preserved.


Lemma register_keeps_wf path e st :
  wf_state st = true -> wf_state (register path e st) = true.
Proof. intros W. apply register_wf. exact W. Qed.

Lemma reduce_wf schemas acc st :
  wf_state st = true -> wf_state (snd (reduce schemas acc st)) = true.
Proof.
  apply (reduce_preserves (fun st => wf_state st = true) register_keeps_wf).
Qed.

Lemma registerLogicalSchema_wf schemas st :
  wf_state st = true ->
  wf_state (snd (registerLogicalSchema schemas st)) = true.
Proof.
  intros W. unfold registerLogicalSchema.
  destruct (_watcher st) as [w|]; [|exact W].
  pose proof (reduce_wf schemas [] st W) as W1.
  destruct (reduce schemas [] st) as [[d|e] st1]; exact W1.
Qed.



Lemma emit_frame e ls st :
  observableStore (fold_left (run_listener e) ls st) = observableStore st
  /\ streams (fold_left (run_listener e) ls st) = streams st
  /\ _rootSubscription (fold_left (run_listener e) ls st)
     = _rootSubscription st.
Proof.
  revert st. induction ls as [|l ls IH]; intros st; [auto|].
  simpl. destruct (IH (run_listener e st l)) as (A & B & C).
  rewrite A, B, C. destruct l. auto.
Qed.

(** X11: the field [_rootSubscription] is [null] in every state of the
    service: no method assigns it, so the guard of [startObservable]
    never holds a call back. *)
Lemma reachable_rootSubscription st :
  reachable st -> _rootSubscription st = None.
Proof.
  induction 1 as [addresses | b url st R N | st R N
                 | schemas st R N | schemas st R N | st R N
                 | e st R N].
  - reflexivity.
  - unfold createWatcher. destruct b; [auto|].
    destruct url as [[|c u]|]; auto.
  - unfold startObservable. destruct (_watcher st); [|auto].
    rewrite N. auto.
  - unfold registerLogicalSchema. destruct (_watcher st) as [w|]; [|exact N].
    pose proof (reduce_frame schemas [] st) as (_ & _ & F & _).
    destruct (reduce schemas [] st) as [[d|e] st1]; simpl in *; congruence.
  - unfold registerDerivedSchema. clear R. revert st N.
    induction schemas as [|d rest IH]; intros st N; [exact N|].
    simpl. apply IH. unfold registerDerived.
    destruct (allDependentObservablesExist _); [|exact N].
    destruct (Lodash.merge _ _ _) as [h' store']. exact N.
  - exact N.
  - unfold watcher_emit. destruct (_watcher st) as [w|]; [|auto].
    destruct (emit_frame e (listeners w) st) as (_ & _ & C).
    rewrite C. exact N.
Qed.

(** ** Logical schemas: the observable of each return key *)



(** ** Derived schemas *)







(** ** Registrations that pass through no registered stream *)
























(** ** Earlier snapshots *)




(** ** Registries are trees *)

































(** ** Deep merge of registrations *)



(** ** The registry after a whole logical registration *)

Lemma skipn_nth_error (A : Type) (l : list A) (i : nat) (x : A) :
  nth_error l i = Some x -> skipn i l = x :: skipn (S i) l.
Proof.
  revert i. induction l as [|a l IH]; intros [|i] E; try discriminate.
  - injection E as ->. reflexivity.
  - simpl in E. rewrite (skipn_cons i a l), (IH i E). reflexivity.
Qed.

Lemma forEachObservable_registers prk items :
  forall idx st,
    idx + List.length items <= List.length prk ->
    forEachObservable prk items idx st
    = (Ok tt, register_all (combine items (map fst (skipn idx prk))) st).
Proof.
  induction items as [|item rest IH]; intros idx st L; [reflexivity|].
  simpl in L. cbn [forEachObservable].
  destruct (nth_error prk idx) as [[key cb]|] eqn:E.
  - rewrite (registerObservable_register _ _ _ _ _ _ E),
      (skipn_nth_error _ _ _ _ E).
    rewrite IH by lia. reflexivity.
  - apply nth_error_None in E. lia.
Qed.

Lemma reducer_registers acc s st :
  valid_schema s = true ->
  snd (reducer acc s st)
  = register_all
      (combine (Logical.observableKeys s)
         (map fst (map (fullyQualified s) (Logical.returnKeys s)))) st.
Proof.
  unfold valid_schema, reducer.
  destruct (destructureContractCall (Logical.contractCall s)) as [sig|e] eqn:P;
    [|discriminate].
  intros H. apply andb_true_iff in H as [H H3].
  apply andb_true_iff in H as [H1 H2].
  rewrite H1, H2. simpl negb. cbv iota.
  apply Nat.leb_le in H3.
  rewrite (processedReturnKeys_parsed s sig P).
  rewrite forEachObservable_registers by (rewrite length_map; simpl; lia).
  reflexivity.
Qed.

Lemma register_all_app rs rs' st :
  register_all (rs ++ rs') st = register_all rs' (register_all rs st).
Proof. apply fold_left_app. Qed.

Lemma reduce_registers schemas :
  forall acc st,
    Forall (fun s => valid_schema s = true) schemas ->
    snd (reduce schemas acc st) = register_all (registrations schemas) st.
Proof.
  induction schemas as [|s rest IH]; intros acc st V; [reflexivity|].
  inversion V as [|s' rest' Vs Vr]; subst.
  cbn [reduce registrations flat_map]. rewrite register_all_app.
  pose proof (reducer_valid acc s st Vs) as R.
  pose proof (reducer_registers acc s st Vs) as G.
  destruct (reducer acc s st) as [[acc'|e] st1]; cbn [fst snd] in *;
    [|discriminate].
  rewrite (IH acc' st1 Vr), G. reflexivity.
Qed.




(** * Further properties of the code *)

(** ** The parser beyond well-formed signatures *)

Lemma split_nonempty c s : exists h t, JS.split c s = h :: t.
Proof.
  induction s as [|x r (h & t & E)]; simpl; [eauto|].
  destruct (Ascii.eqb x c); [eauto|]. rewrite E. eauto.
Qed.

Lemma split_app_sep c s1 s2 :
  JS.split c (s1 ++ String c s2) = JS.split c s1 ++ JS.split c s2.
Proof.
  induction s1 as [|x r IH]; simpl.
  - rewrite Ascii.eqb_refl. reflexivity.
  - destruct (Ascii.eqb x c); rewrite IH; [reflexivity|].
    destruct (split_nonempty c r) as (h & t & E). rewrite E. reflexivity.
Qed.

Lemma call_groups_app s t :
  call_groups (s ++ String "(" t) = call_groups s ++ call_groups t.
Proof.
  unfold call_groups. rewrite split_app_sep, !map_app. reflexivity.
Qed.

(** X1: only the first three fragments count.  When a text has at least
    three fragments (its parsing does not end in a TypeError), whatever
    follows one more '(' is ignored: the result is the same. *)
Theorem destructureContractCall_trailing_ignored (s t : string) :
  destructureContractCall s <> Throw TypeError ->
  destructureContractCall (s ++ String "(" t) = destructureContractCall s.
Proof.
  unfold destructureContractCall. rewrite call_groups_app.
  destruct (call_groups s) as [|fn [|ct [|rt rest]]]; try congruence.
  reflexivity.
Qed.

Lemma destructureContractCall_trailing_ignored_witness :
  destructureContractCall "f(a)(b)(c)(d" = Ok (mkSig ["f"] ["a"] ["b"]).
Proof.
  exact (destructureContractCall_trailing_ignored "f(a)(b)" "c)(d"
           ltac:(discriminate)).
Defined.

Lemma split_pieces_clean c s :
  Forall (fun x => occurs c x = false) (JS.split c s).
Proof.
  induction s as [|x r IH]; simpl; [repeat constructor|].
  destruct (Ascii.eqb x c) eqn:E; [constructor; [reflexivity | exact IH]|].
  destruct (JS.split c r) as [|h t]; [repeat constructor; simpl; rewrite E; reflexivity|].
  inversion IH; subst. constructor; [|assumption].
  simpl. rewrite E. assumption.
Qed.

Lemma split_pieces_without c d s :
  occurs d s = false -> Forall (fun x => occurs d x = false) (JS.split c s).
Proof.
  induction s as [|x r IH]; simpl; [repeat constructor|].
  intros H. apply orb_false_iff in H as [Hx Hr]. specialize (IH Hr).
  destruct (Ascii.eqb x c); [constructor; [reflexivity | exact IH]|].
  destruct (JS.split c r) as [|h t]; [repeat constructor; simpl; rewrite Hx; reflexivity|].
  inversion IH; subst. constructor; [|assumption].
  simpl. rewrite Hx. assumption.
Qed.

Lemma occurs_substring d s :
  occurs d s = false -> forall n, occurs d (substring 0 n s) = false.
Proof.
  induction s as [|x r IH]; intros H n; [destruct n; reflexivity|].
  simpl in H. apply orb_false_iff in H as [Hx Hr].
  destruct n; [reflexivity|]. simpl. rewrite Hx. apply IH. exact Hr.
Qed.

Lemma occurs_strip_paren d s :
  occurs d s = false -> occurs d (strip_paren s) = false.
Proof.
  intros H. unfold strip_paren.
  destruct (JS.last_char s) as [c|]; [|exact H].
  destruct (Ascii.eqb c ")"); [apply occurs_substring|]; exact H.
Qed.

(** The names the parser makes of one fragment. *)
Lemma group_clean frag :
  occurs "(" frag = false ->
  Forall clean_name (filter JS.nonempty (JS.split "," (strip_paren frag))).
Proof.
  intros H. apply Forall_forall. intros x I.
  apply filter_In in I as [I N].
  pose proof (split_pieces_clean "," (strip_paren frag)) as A.
  pose proof (split_pieces_without "," "(" (strip_paren frag)
                (occurs_strip_paren _ _ H)) as B.
  rewrite Forall_forall in A, B.
  split; [intros ->; discriminate|]. split; [apply A | apply B]; exact I.
Qed.

Lemma call_groups_clean s :
  Forall (Forall clean_name) (call_groups s).
Proof.
  unfold call_groups. rewrite !map_map. apply Forall_forall.
  intros g I. apply in_map_iff in I as (frag & <- & I).
  apply group_clean.
  pose proof (split_pieces_clean "(" s) as A. rewrite Forall_forall in A.
  apply A. exact I.
Qed.

(** X2: what a successful parse hands out.  There is at least one return
    type, and every name and type of the three groups is a non-empty
    string without comma and without opening parenthesis. *)
Theorem destructureContractCall_parsed_shape (s : string) (sig : CallSignature) :
  destructureContractCall s = Ok sig ->
  returnTypes sig <> []
  /\ Forall clean_name (callFnName sig)
  /\ Forall clean_name (callTypes sig)
  /\ Forall clean_name (returnTypes sig).
Proof.
  unfold destructureContractCall. pose proof (call_groups_clean s) as C.
  destruct (call_groups s) as [|fn [|ct [|rt rest]]]; try discriminate.
  inversion C as [|? ? C1 C']; subst.
  inversion C' as [|? ? C2 C'']; subst.
  inversion C'' as [|? ? C3 _]; subst.
  destruct rt as [|r rs]; [discriminate|].
  simpl. intros [= <-]. simpl. split_ands; try assumption. discriminate.
Qed.

Lemma destructureContractCall_parsed_shape_witness :
  Forall clean_name ["a"; "b"] /\ Forall clean_name ["c"; "d"].
Proof.
  destruct (destructureContractCall_parsed_shape "f(,a,,b)(c,d,)"
              (mkSig ["f"] ["a"; "b"] ["c"; "d"]) eq_refl)
    as (_ & _ & A & B).
  split; assumption.
Defined.

Lemma call_groups_named (f : string) (args rets : list string) :
  occurs "(" f = false -> occurs ")" f = false -> occurs "," f = false ->
  Forall (fun s => is_token s = true) args ->
  Forall (fun s => is_token s = true) rets ->
  call_groups (signature_text f args rets)
  = [filter JS.nonempty [f]; args; rets].
Proof.
  intros Hf1 Hf2 Hf3 Ha Hr.
  assert (Hopen : forall l, Forall (fun s => is_token s = true) l ->
                            occurs "(" (JS.join "," l) = false).
  { intros l Hl. apply occurs_join; [discriminate|].
    eapply Forall_impl; [|exact Hl]. intros s Hs.
    apply is_token_inv in Hs. tauto. }
  unfold signature_text.
  replace (f ++ "(" ++ JS.join "," args ++ ")(" ++ JS.join "," rets ++ ")")%string
    with (f ++ String "(" ((JS.join "," args ++ ")")
                             ++ String "(" (JS.join "," rets ++ ")")))%string
    by (rewrite (string_app_assoc (JS.join "," args)); reflexivity).
  rewrite !call_groups_app. unfold call_groups.
  rewrite (split_no_occurrence _ f Hf1).
  rewrite (split_no_occurrence "(" (JS.join "," args ++ ")")%string)
    by (rewrite occurs_app, (Hopen args Ha); reflexivity).
  rewrite (split_no_occurrence "(" (JS.join "," rets ++ ")")%string)
    by (rewrite occurs_app, (Hopen rets Hr); reflexivity).
  cbn [map app].
  rewrite (group_of_tokens args Ha), (group_of_tokens rets Hr).
  rewrite (strip_paren_open f Hf2), (split_no_occurrence _ f Hf3).
  reflexivity.
Qed.

(** X3: the function name is not checked.  A signature with nothing before
    its first parenthesis, [(a1,...,an)(r1,...,rm)], parses, and its name
    group is empty. *)
Theorem destructureContractCall_empty_name (args rets : list string) :
  Forall (fun s => is_token s = true) args ->
  Forall (fun s => is_token s = true) rets ->
  rets <> [] ->
  destructureContractCall (signature_text EmptyString args rets)
  = Ok (mkSig [] args rets).
Proof.
  intros Ha Hr N. unfold destructureContractCall.
  rewrite (call_groups_named EmptyString args rets eq_refl eq_refl eq_refl Ha Hr).
  destruct rets; [congruence | reflexivity].
Qed.

Lemma destructureContractCall_empty_name_witness :
  destructureContractCall "(addr)(uint)" = Ok (mkSig [] ["addr"] ["uint"]).
Proof.
  apply (destructureContractCall_empty_name ["addr"] ["uint"]);
    [repeat constructor | repeat constructor | discriminate].
Defined.

(** ** Logical registration, call by call *)

Lemma register_frame path e st :
  _watcher (register path e st) = _watcher st
  /\ contractAddresses (register path e st) = contractAddresses st
  /\ _rootSubscription (register path e st) = _rootSubscription st
  /\ _rootSubcription (register path e st) = _rootSubcription st
  /\ _rootObservable (register path e st) = _rootObservable st.
Proof.
  unfold register. destruct (Lodash.merge _ _ _) as [h' store']. auto.
Qed.

Lemma register_all_frame rs :
  forall st,
    _watcher (register_all rs st) = _watcher st
    /\ contractAddresses (register_all rs st) = contractAddresses st
    /\ _rootSubscription (register_all rs st) = _rootSubscription st
    /\ _rootSubcription (register_all rs st) = _rootSubcription st
    /\ _rootObservable (register_all rs st) = _rootObservable st.
Proof.
  induction rs as [|[path key] rs IH]; intros st; [simpl; auto|].
  cbn [register_all fold_left fst snd].
  destruct (IH (register path (filteredObservable key) st)) as (A & B & C & D & E).
  destruct (register_frame path (filteredObservable key) st)
    as (A' & B' & C' & D' & E').
  unfold register_all in *. rewrite A, B, C, D, E. auto.
Qed.

(** A call whose entries are all valid, in one equation. *)
Lemma registerLogicalSchema_valid schemas st w :
  _watcher st = Some w ->
  Forall (fun s => valid_schema s = true) schemas ->
  registerLogicalSchema schemas st
  = (Ok (observableStore (register_all (registrations schemas) st)),
     with_watcher (register_all (registrations schemas) st)
       (Some (mkWatcher
                (model w
                   ++ map (expected_descriptor (contractAddresses st)) schemas)
                (listeners w)))).
Proof.
  intros Hw V. unfold registerLogicalSchema. rewrite Hw.
  pose proof (reduce_valid schemas [] st V) as R.
  pose proof (reduce_registers schemas [] st V) as G.
  destruct (reduce schemas [] st) as [[d|e] st1]; cbn [fst snd] in *;
    [|discriminate].
  injection R as ->. subst st1. reflexivity.
Qed.


Lemma forEachObservable_short prk items :
  forall idx st,
    idx <= List.length prk ->
    List.length prk < idx + List.length items ->
    forEachObservable prk items idx st
    = (Throw TypeError,
       register_all (combine items (map fst (skipn idx prk))) st).
Proof.
  induction items as [|item rest IH]; intros idx st L1 L2; [simpl in L2; lia|].
  simpl in L2. cbn [forEachObservable].
  destruct (nth_error prk idx) as [[key cb]|] eqn:E.
  - assert (idx < List.length prk) by (apply nth_error_Some; congruence).
    rewrite (registerObservable_register _ _ _ _ _ _ E),
      (skipn_nth_error _ _ _ _ E).
    rewrite IH by lia. reflexivity.
  - unfold registerObservable. rewrite E.
    apply nth_error_None in E. rewrite skipn_all2 by exact E. reflexivity.
Qed.

Lemma registrations_app a b :
  registrations (a ++ b) = registrations a ++ registrations b.
Proof. unfold registrations. apply flat_map_app. Qed.

Lemma registrations_one s :
  registrations [s]
  = combine (Logical.observableKeys s)
      (map fst (map (fullyQualified s) (Logical.returnKeys s))).
Proof. unfold registrations. simpl. apply app_nil_r. Qed.

(** The state in which a call reaches the entry that follows valid ones. *)
Lemma reduce_valid_prefix pre rest st :
  Forall (fun s => valid_schema s = true) pre ->
  reduce (pre ++ rest) [] st
  = reduce rest (map (expected_descriptor (contractAddresses st)) pre)
      (register_all (registrations pre) st).
Proof.
  intros V. rewrite reduce_app.
  pose proof (reduce_valid pre [] st V) as R.
  pose proof (reduce_registers pre [] st V) as G.
  destruct (reduce pre [] st) as [[d|e] st1]; cbn [fst snd] in *;
    [|discriminate].
  injection R as ->. subst st1. reflexivity.
Qed.

(** X5: an entry with more observable keys than return keys.  When the
    entries before it are valid and its own signature and arities are
    right, the call throws a TypeError at the first observable key that
    has no return key: the observables of the earlier entries and those
    of this entry that do have a return key are registered by then, and
    they stay; the watcher's call list is as before the call. *)
Theorem registerLogicalSchema_missing_return_key
    (pre post : list Logical.schema) (s : Logical.schema)
    (sig : CallSignature) (st : state) (w : Watcher) :
  _watcher st = Some w ->
  Forall (fun s => valid_schema s = true) pre ->
  destructureContractCall (Logical.contractCall s) = Ok sig ->
  List.length (callTypes sig) = List.length (Logical.callArgs s) ->
  List.length (returnTypes sig) = List.length (Logical.returnKeys s) ->
  List.length (Logical.returnKeys s) < List.length (Logical.observableKeys s) ->
  fst (registerLogicalSchema (pre ++ s :: post) st) = Throw TypeError
  /\ _watcher (snd (registerLogicalSchema (pre ++ s :: post) st)) = Some w
  /\ observableStore (snd (registerLogicalSchema (pre ++ s :: post) st))
     = observableStore (register_all (registrations (pre ++ [s])) st)
  /\ streams (snd (registerLogicalSchema (pre ++ s :: post) st))
     = streams (register_all (registrations (pre ++ [s])) st).
Proof.
  intros Hw V P A1 A2 L. unfold registerLogicalSchema.
  rewrite Hw, (reduce_valid_prefix pre (s :: post) st V).
  rewrite registrations_app, register_all_app, registrations_one.
  set (st1 := register_all (registrations pre) st).
  assert (W1 : _watcher st1 = Some w).
  { unfold st1. destruct (register_all_frame (registrations pre) st) as (F & _).
    congruence. }
  cbn [reduce]. unfold reducer. rewrite P, A1, A2, !Nat.eqb_refl.
  simpl negb. cbv iota.
  rewrite (processedReturnKeys_parsed s sig P).
  rewrite forEachObservable_short
    by (rewrite length_map; simpl; lia).
  cbn [fst snd skipn].
  destruct (register_all_frame
              (combine (Logical.observableKeys s)
                 (map fst (map (fullyQualified s) (Logical.returnKeys s))))
              st1) as (F & _).
  rewrite F, W1. auto.
Qed.

Lemma registerLogicalSchema_missing_return_key_witness :
  let s := Logical.mkSchema "X" "bal(addr)(uint)" [(JString "0xabc", None)]
             None [("balance", None)] [["x"; "balance"]; ["x"; "other"]] in
  let r := registerLogicalSchema [s] connected in
  fst r = Throw TypeError
  /\ _watcher (snd r) = Some (mkWatcher [] [])
  /\ observableStore (snd r) = Obj [("x", Obj [("balance", Stream 0)])].
Proof.
  intros s r.
  destruct (registerLogicalSchema_missing_return_key [] [] s
              (mkSig ["bal"] ["addr"] ["uint"]) connected (mkWatcher [] [])
              eq_refl ltac:(constructor) eq_refl eq_refl eq_refl
              ltac:(simpl; lia)) as (A & B & C & _).
  split; [exact A|]. split; [exact B | exact C].
Defined.

(** X6: an entry whose signature does not parse.  When the entries before
    it are valid, the call throws the parser's error, whatever the
    entry's arguments and keys; the observables of the earlier entries
    are registered and stay, and the watcher's call list is as before the
    call. *)
Theorem registerLogicalSchema_malformed_entry
    (pre post : list Logical.schema) (s : Logical.schema) (e : exn)
    (st : state) (w : Watcher) :
  _watcher st = Some w ->
  Forall (fun s => valid_schema s = true) pre ->
  destructureContractCall (Logical.contractCall s) = Throw e ->
  fst (registerLogicalSchema (pre ++ s :: post) st) = Throw e
  /\ _watcher (snd (registerLogicalSchema (pre ++ s :: post) st)) = Some w
  /\ observableStore (snd (registerLogicalSchema (pre ++ s :: post) st))
     = observableStore (register_all (registrations pre) st)
  /\ streams (snd (registerLogicalSchema (pre ++ s :: post) st))
     = streams (register_all (registrations pre) st).
Proof.
  intros Hw V P. unfold registerLogicalSchema.
  rewrite Hw, (reduce_valid_prefix pre (s :: post) st V).
  cbn [reduce]. unfold reducer. rewrite P. cbn [fst snd].
  destruct (register_all_frame (registrations pre) st) as (F & _).
  rewrite F, Hw. auto.
Qed.

Lemma registerLogicalSchema_malformed_entry_witness :
  let s := Logical.mkSchema "X" "bal(addr)" [] None [] [["y"]] in
  let r := registerLogicalSchema [balance_schema; s] connected in
  fst r = Throw TypeError
  /\ _watcher (snd r) = Some (mkWatcher [] [])
  /\ observableStore (snd r) = Obj [("x", Obj [("balance", Stream 0)])].
Proof.
  intros s r.
  destruct (registerLogicalSchema_malformed_entry [balance_schema] [] s
              TypeError connected (mkWatcher [] [])
              eq_refl ltac:(repeat constructor) eq_refl) as (A & B & C & _).
  split; [exact A|]. split; [exact B | exact C].
Defined.

(** X7: nothing is deduplicated.  Registering the same valid entries a
    second time appends their descriptors to the call list a second
    time. *)
Theorem registerLogicalSchema_twice
    (schemas : list Logical.schema) (st : state) (w : Watcher) :
  _watcher st = Some w ->
  Forall (fun s => valid_schema s = true) schemas ->
  let ds := map (expected_descriptor (contractAddresses st)) schemas in
  _watcher (snd (registerLogicalSchema schemas
                   (snd (registerLogicalSchema schemas st))))
  = Some (mkWatcher (model w ++ ds ++ ds) (listeners w)).
Proof.
  intros Hw V ds. rewrite (registerLogicalSchema_valid schemas st w Hw V).
  cbn [snd]. fold ds.
  set (st1 := with_watcher _ _).
  assert (A1 : contractAddresses st1 = contractAddresses st).
  { unfold st1.
    destruct (register_all_frame (registrations schemas) st) as (_ & B & _).
    exact B. }
  rewrite (registerLogicalSchema_valid schemas st1
             (mkWatcher (model w ++ ds) (listeners w)) eq_refl V).
  cbn [snd model listeners]. rewrite A1. fold ds.
  rewrite <- app_assoc. reflexivity.
Qed.

Lemma registerLogicalSchema_twice_witness :
  let d := mkDescriptor None [JString "bal(addr)(uint)"; JString "0xabc"]
             [("X.bal.0xabc.balance", None)] in
  option_map model
    (_watcher (snd (registerLogicalSchema [balance_schema]
                      (snd (registerLogicalSchema [balance_schema] connected)))))
  = Some [d; d].
Proof.
  intros d.
  rewrite (registerLogicalSchema_twice [balance_schema] connected
             (mkWatcher [] []) eq_refl ltac:(repeat constructor)).
  reflexivity.
Defined.

(** ** What the calls keep *)

Lemma registered_balance : reachable (snd (registerLogicalSchema [balance_schema] connected)).
Proof.
  apply reach_registerLogicalSchema.
  exact (reach_createWatcher true None _ (reach_constructor (fun _ => None))).
Defined.


Lemma reachable_rootSubscription_witness :
  _rootSubscription
    (snd (startObservable (snd (registerLogicalSchema [balance_schema] connected))))
  = None.
Proof.
  exact (reachable_rootSubscription _
           (reach_startObservable _ registered_balance)).
Defined.








(** ** The watcher and the views *)

(** X13: [createWatcher] starts afresh.  It fails only without a web3
    provider and without an rpcUrl, changing nothing.  Otherwise it
    installs a watcher that has no call and no subscriber, whatever the
    former watcher had, and keeps the registry and what went through the
    root subject.  An update of the new watcher is lost until
    [startObservable] is called again, after which each update reaches
    the root subject once. *)
Theorem createWatcher_restarts
    (useWeb3Provider : bool) (rpcUrl : option string) (st : state) (e : event) :
  _rootSubscription st = None ->
  let r := createWatcher useWeb3Provider rpcUrl st in
  (r = (Throw UnableToGetRpcUrl, st)
   /\ useWeb3Provider = false
   /\ (rpcUrl = None \/ rpcUrl = Some EmptyString))
  \/ (r = (Ok (mkWatcher [] []), snd r)
      /\ _watcher (snd r) = Some (mkWatcher [] [])
      /\ observableStore (snd r) = observableStore st
      /\ streams (snd r) = streams st
      /\ _rootObservable (watcher_emit e (snd r)) = _rootObservable st
      /\ _rootObservable (watcher_emit e (snd (startObservable (snd r))))
         = _rootObservable st ++ [e]).
Proof.
  intros N r. unfold r, createWatcher.
  assert (G : forall st1,
             st1 = with_watcher st (Some (mkWatcher [] [])) ->
             _watcher st1 = Some (mkWatcher [] [])
             /\ observableStore st1 = observableStore st
             /\ streams st1 = streams st
             /\ _rootObservable (watcher_emit e st1) = _rootObservable st
             /\ _rootObservable (watcher_emit e (snd (startObservable st1)))
                = _rootObservable st ++ [e]).
  { intros st1 ->. unfold startObservable, watcher_emit. cbn.
    rewrite N. cbn. auto. }
  destruct useWeb3Provider.
  - right. split; [reflexivity|]. apply G. reflexivity.
  - destruct rpcUrl as [[|c u]|].
    + left. auto.
    + right. split; [reflexivity|]. apply G. reflexivity.
    + left. auto.
Qed.

Lemma createWatcher_restarts_witness :
  let e := mkEvent "X.bal.0xabc.balance" (JNumber 42) in
  let st := snd (startObservable
                   (snd (registerLogicalSchema [balance_schema] connected))) in
  let st1 := snd (createWatcher false (Some "http://localhost:2000") st) in
  option_map model (_watcher st1) = Some []
  /\ _rootObservable (watcher_emit e st1) = []
  /\ _rootObservable (watcher_emit e (snd (startObservable st1))) = [e].
Proof.
  intros e st st1.
  destruct (createWatcher_restarts false (Some "http://localhost:2000") st e
              eq_refl) as [(A & _)|(_ & A & _ & _ & B & C)].
  - discriminate.
  - fold st1 in A, B, C. rewrite A. split; [reflexivity|].
    split; [exact B | exact C].
Defined.

Lemma filteredObservable_app key log1 log2 :
  filteredObservable key (log1 ++ log2)
  = filteredObservable key log1 ++ filteredObservable key log2.
Proof. unfold filteredObservable. rewrite filter_app, map_app. reflexivity. Qed.

Lemma filteredObservable_repeat key e n :
  filteredObservable key (repeat e n)
  = if String.eqb (type e) key then repeat (value e) n else [].
Proof.
  unfold filteredObservable. induction n as [|n IH]; simpl.
  - destruct (String.eqb (type e) key); reflexivity.
  - destruct (String.eqb (type e) key) eqn:E; simpl; rewrite IH; reflexivity.
Qed.

(** X14: what an update does to a view.  When the watcher hands out an
    update, the view filtered on [key] gains the update's value, once for
    each subscription made by [startObservable], if the update's type is
    [key]; it gains nothing otherwise.  What it emitted before stays, in
    order. *)
Theorem filteredObservable_update
    (st : state) (w : Watcher) (key : string) (e : event) :
  _watcher st = Some w ->
  filteredObservable key (_rootObservable (watcher_emit e st))
  = filteredObservable key (_rootObservable st)
      ++ (if String.eqb (type e) key
          then repeat (value e) (List.length (listeners w))
          else []).
Proof.
  intros Hw. unfold watcher_emit. rewrite Hw, rootObservable_next_all.
  rewrite filteredObservable_app, filteredObservable_repeat. reflexivity.
Qed.

Lemma filteredObservable_update_witness :
  let st := snd (startObservable connected) in
  let st1 := watcher_emit (mkEvent "X.bal.0xabc.balance" (JNumber 42))
               (watcher_emit (mkEvent "X.bal.0xdef.balance" (JNumber 7)) st) in
  filteredObservable "X.bal.0xabc.balance" (_rootObservable st1) = [JNumber 42].
Proof.
  intros st st1. unfold st1.
  rewrite (filteredObservable_update
             (watcher_emit (mkEvent "X.bal.0xdef.balance" (JNumber 7)) st)
             (mkWatcher [] [NextRoot]) "X.bal.0xabc.balance"
             (mkEvent "X.bal.0xabc.balance" (JNumber 42)) eq_refl).
  rewrite (filteredObservable_update st (mkWatcher [] [NextRoot])
             "X.bal.0xabc.balance"
             (mkEvent "X.bal.0xdef.balance" (JNumber 7)) eq_refl).
  reflexivity.
Defined.

(** ** Derived registration and lookup by string *)











(** ** Registering above and below a registered path *)








